(** * Position/offset conversions of gopls: safetoken and the protocol mapper

    Shallow embedding of [gopls/internal/lsp/safetoken/safetoken.go] and of
    the coordinate mapping exercised by [TestBytesOffset] in
    [gopls/internal/lsp/lsp_test.go]. *)

From Stdlib Require Import ZArith List String Bool Lia DecimalString Sorted.
From Stdlib Require Import Permutation.
From Stdlib.Init Require Import Byte.
Import ListNotations.
Local Open Scope Z_scope.

(** ** Go's [int] *)

(** Go's [int] is a signed machine word; arithmetic on it wraps around
    silently.  The width is 64 bits on the platforms gopls is built for; the
    proofs below only go through [wrap_small], so they do not depend on it. *)
Module GoInt.

Definition bits : Z := 64.
Definition modulus : Z := 2 ^ bits.
Definition min_int : Z := - 2 ^ (bits - 1).
Definition max_int : Z := 2 ^ (bits - 1) - 1.

(** Two's complement reduction of a mathematical integer to an [int]. *)
Definition wrap (x : Z) : Z := (x - min_int) mod modulus + min_int.

Definition is_int (x : Z) : Prop := min_int <= x <= max_int.

Definition add (x y : Z) : Z := wrap (x + y).
Definition sub (x y : Z) : Z := wrap (x - y).

(** The verb [%d] of package fmt. *)
Definition fmt_d (x : Z) : string := NilZero.string_of_int (Z.to_int x).

End GoInt.

(** ** The part of go/token the wrappers read *)

Module token.

(** [token.Pos] is an [int]. *)
Definition Pos : Type := Z.
Definition NoPos : Pos := 0.

(** [token.File], reduced to the fields behind [Name], [Base] and [Size]. *)
Record File : Type := mkFile {
  Name : string;
  Base : Z;
  Size : Z
}.

(** What [token.FileSet.AddFile] guarantees of every file it hands out: the
    size is not negative, the base is not negative, and [base+size+1], the
    base of the next file, did not overflow. *)
Definition wf (f : File) : Prop :=
  0 <= Base f /\ 0 <= Size f /\ Base f + Size f + 1 <= GoInt.max_int.

End token.

(** ** Go's [error] values *)

(** An [error] is [nil] or carries a message; [fmt.Errorf] builds the
    latter from the formatted text. *)
Inductive error : Type :=
| nil
| Errorf (msg : string).

(** ** Package safetoken *)

Module safetoken.
Import token.

(** [inRange] reports whether file [f] contains position [pos], according
    to the invariants of [token.File]. *)
Definition inRange (f : File) (pos : token.Pos) : bool :=
  (Base f <=? pos) && (pos <=? GoInt.add (Base f) (Size f)).

(** The message of the error [Offset] returns. *)
Definition Offset_error (f : File) (pos : token.Pos) : error :=
  Errorf ("pos " ++ GoInt.fmt_d pos ++ " is not in range [" ++
          GoInt.fmt_d (Base f) ++ ":" ++
          GoInt.fmt_d (GoInt.add (Base f) (Size f)) ++
          "] of file " ++ Name f).

(** [Offset] returns [f.Offset(pos)], but first checks that the file
    contains the pos; a pos exactly 1 byte beyond EOF is accepted and
    mapped to the EOF offset. *)
Definition Offset (f : File) (pos : token.Pos) : Z * error :=
  if negb (inRange f pos) then
    if pos =? GoInt.add (GoInt.add (Base f) (Size f)) 1 then
      (Size f, nil)
    else
      (-1, Offset_error f pos)
  else
    (GoInt.sub pos (Base f), nil).

(** The message of the error [Pos] returns. *)
Definition Pos_error (f : File) (offset : Z) : error :=
  Errorf ("offset " ++ GoInt.fmt_d offset ++ " is not in range for file " ++
          Name f ++ " of size " ++ GoInt.fmt_d (Size f)).

(** [Pos] returns [f.Pos(offset)], but first checks that the offset is
    non-negative and not larger than the size of the file. *)
Definition Pos (f : File) (offset : Z) : token.Pos * error :=
  if negb ((0 <=? offset) && (offset <=? Size f)) then
    (NoPos, Pos_error f offset)
  else
    (GoInt.add (Base f) offset, nil).

End safetoken.

(** A file of 10 bytes registered at base 1, as the first file of a file
    set is. *)
Definition sample_file : token.File := token.mkFile "a.go" 1 10.

(** ** The protocol mapper *)

(** [TestBytesOffset] drives the mapper through [protocol.NewMapper] and
    [Mapper.PositionPoint].  The mapper is modelled here from its design
    description: the components LineTable, Utf16Translator and Mapper. *)
Module mapper.

(** Modelled from the spec: the error kinds of the mapper's conversions. *)
Inductive ErrorKind : Type :=
| OutOfRange
| InvalidLine
| InvalidColumn.

(** A conversion returns its result or an explicit failure. *)
Inductive result (A : Type) : Type :=
| Ok (a : A)
| Fail (e : ErrorKind).
Arguments Ok {A} a.
Arguments Fail {A} e.

Definition bind {A B : Type} (r : result A) (k : A -> result B) : result B :=
  match r with
  | Ok a => k a
  | Fail e => Fail e
  end.

Notation "x <- r ;; k" := (bind r (fun x => k))
  (at level 61, r at next level, right associativity).

(** The value of a byte, 0 to 255. *)
Definition byte_val (b : byte) : Z := Z.of_N (Byte.to_N b).

(** Go's [len], as an integer. *)
Definition len {A : Type} (l : list A) : Z := Z.of_nat (List.length l).

(** *** LineTable *)

(** Modelled from the spec: the line-terminator byte of LineTable.build,
    LF. *)
Definition is_terminator (b : byte) : bool := byte_val b =? 10.

(** Modelled from the spec: LineTable.build, the single scan that records
    the offset immediately following every line-terminator byte as the
    start of the next line.  [off] is the offset of the head of
    [content]. *)
Fixpoint scan (content : list byte) (off : Z) : list Z :=
  match content with
  | [] => []
  | b :: rest =>
      if is_terminator b then (off + 1) :: scan rest (off + 1)
      else scan rest (off + 1)
  end.

(** Modelled from the spec: LineTable.build; the first entry is always 0,
    and the line after the last terminator has an entry even if empty. *)
Definition build (content : list byte) : list Z := 0 :: scan content 0.

(** Modelled from the spec: LineTable.offsetOfLine, a direct index into the
    table that fails with InvalidLine out of it. *)
Definition offsetOfLine (table : list Z) (line : Z) : result Z :=
  if (line <? 0) || (len table <=? line) then Fail InvalidLine
  else Ok (nth (Z.to_nat line) table 0).

(** Modelled from the spec: the binary search of LineTable.lineOfOffset.
    It narrows [lo, hi) to the least index whose line start is greater
    than [offset]; each round halves the interval, so [hi - lo] rounds
    are enough. *)
Fixpoint search (fuel : nat) (table : list Z) (offset : Z) (lo hi : nat)
  : nat :=
  match fuel with
  | O => lo
  | S fuel' =>
      if (lo <? hi)%nat then
        let mid := Nat.div2 (lo + hi) in
        if nth mid table 0 <=? offset
        then search fuel' table offset (S mid) hi
        else search fuel' table offset lo mid
      else lo
  end.

(** Modelled from the spec: LineTable.lineOfOffset, the line whose start is
    the greatest one not above [offset]; OutOfRange when [offset] is
    negative or exceeds the content length [size]. *)
Definition lineOfOffset (table : list Z) (size : Z) (offset : Z)
  : result Z :=
  if (offset <? 0) || (size <? offset) then Fail OutOfRange
  else
    let n := List.length table in
    Ok (Z.of_nat (search n table offset 0 n) - 1).

(** *** Utf16Translator *)

(** Modelled from the spec: Utf16Translator's decoding; a continuation
    byte of a multi-byte character is 10xxxxxx. *)
Definition is_cont (b : byte) : bool :=
  (128 <=? byte_val b) && (byte_val b <? 192).

(** Modelled from the spec: Utf16Translator's decoding of one character,
    as the number of bytes it occupies (1 to 4).  The lead byte announces
    the length; a byte that starts no complete character stands for itself,
    as one character of one byte. *)
Definition rune_len (l : list byte) : nat :=
  match l with
  | [] => 0
  | b0 :: t =>
      let v := byte_val b0 in
      if (v <? 192)%Z then 1
      else if (v <? 224)%Z then
        match t with
        | b1 :: _ => if is_cont b1 then 2 else 1
        | _ => 1
        end
      else if (v <? 240)%Z then
        match t with
        | b1 :: b2 :: _ => if is_cont b1 && is_cont b2 then 3 else 1
        | _ => 1
        end
      else if (v <? 248)%Z then
        match t with
        | b1 :: b2 :: b3 :: _ =>
            if is_cont b1 && is_cont b2 && is_cont b3 then 4 else 1
        | _ => 1
        end
      else 1
  end%nat.

(** Modelled from the spec: Utf16Translator's walk over the characters of
    a line, decoding one at a time from the left; each character is kept as
    its length in bytes.  A character takes at least one byte, so fuel equal
    to the number of bytes is enough (see [runes_cons]). *)
Fixpoint runes_fuel (fuel : nat) (l : list byte) : list nat :=
  match fuel, l with
  | S fuel', _ :: _ =>
      let w := rune_len l in w :: runes_fuel fuel' (skipn w l)
  | _, _ => []
  end.

Definition runes (l : list byte) : list nat := runes_fuel (List.length l) l.

(** Modelled from the spec: a character of 1 to 3 bytes is one UTF-16
    unit, a character of 4 bytes is a surrogate pair. *)
Definition utf16_units (w : nat) : Z := if (w =? 4)%nat then 2 else 1.

(** Modelled from the spec: the loop of Utf16Translator.byteColumnForUtf16
    over the characters [ws] still ahead; [byteOff] and [count] are the
    bytes and the UTF-16 units consumed so far.  The second exit is the
    column on the second unit of a surrogate pair. *)
Fixpoint byte_walk (ws : list nat) (utf16Col byteOff count : Z)
  : result Z :=
  if count =? utf16Col then Ok byteOff
  else
    match ws with
    | [] => Fail InvalidColumn
    | w :: ws' =>
        if utf16Col <? count + utf16_units w
        then Ok byteOff
        else byte_walk ws' utf16Col (byteOff + Z.of_nat w)
                       (count + utf16_units w)
    end.

(** Modelled from the spec: Utf16Translator.byteColumnForUtf16.  A column
    on a character boundary gives the byte offset of that character, a
    column on the second unit of a surrogate pair is rounded down to the
    start of the pair, a column beyond the line fails. *)
Definition byteColumnForUtf16 (lineBytes : list byte) (utf16Col : Z)
  : result Z :=
  if utf16Col <? 0 then Fail InvalidColumn
  else byte_walk (runes lineBytes) utf16Col 0 0.

(** Modelled from the spec: the loop of
    Utf16Translator.utf16ColumnForByteColumn; [byteOff] and [count] as in
    [byte_walk]. *)
Fixpoint utf16_walk (ws : list nat) (byteCol byteOff count : Z)
  : result Z :=
  if byteOff =? byteCol then Ok count
  else
    match ws with
    | [] => Fail InvalidColumn
    | w :: ws' =>
        if byteCol <? byteOff + Z.of_nat w
        then Fail InvalidColumn
        else utf16_walk ws' byteCol (byteOff + Z.of_nat w)
                        (count + utf16_units w)
    end.

(** Modelled from the spec: Utf16Translator.utf16ColumnForByteColumn.  It
    fails when [byteCol] is not on a character boundary or exceeds the
    line length. *)
Definition utf16ColumnForByteColumn (lineBytes : list byte) (byteCol : Z)
  : result Z :=
  utf16_walk (runes lineBytes) byteCol 0 0.

(** The byte offsets at which the characters [ws] start, and the offset
    after the last one; [off] is the offset of the first. *)
Fixpoint rune_starts (ws : list nat) (off : Z) : list Z :=
  match ws with
  | [] => [off]
  | w :: ws' => off :: rune_starts ws' (off + Z.of_nat w)
  end.

(** The number of bytes the characters [ws] occupy. *)
Fixpoint total_bytes (ws : list nat) : Z :=
  match ws with
  | [] => 0
  | w :: ws' => Z.of_nat w + total_bytes ws'
  end.

(** Modelled from the spec: the byte offset [o] lies on a character
    boundary of [l]: a character starts there, or the last one ends
    there. *)
Definition is_char_boundary (l : list byte) (o : Z) : bool :=
  existsb (Z.eqb o) (rune_starts (runes l) 0).

(** *** Mapper *)

(** Modelled from the spec: ProtocolPosition, a zero-based line and a
    column in UTF-16 code units. *)
Record Position : Type := mkPosition {
  Line : Z;
  Character : Z
}.

(** Modelled from the spec: Mapper, one content and its line table. *)
Record Mapper : Type := mkMapper {
  Content : list byte;
  Lines : list Z
}.

(** Modelled from the spec: the construction of a Mapper, which binds one
    content to the line table built from it. *)
Definition NewMapper (content : list byte) : Mapper :=
  {| Content := content; Lines := build content |}.

(** Modelled from the spec: where the bytes of line [line] stop, the
    terminator excluded: at the byte before the next line start, or at the
    end of the content for the last line. *)
Definition lineStop (m : Mapper) (line : Z) : Z :=
  if line + 1 <? len (Lines m)
  then nth (Z.to_nat (line + 1)) (Lines m) 0 - 1
  else len (Content m).

(** Modelled from the spec: the slice of the content that holds the bytes
    of line [line]. *)
Definition lineBytes (m : Mapper) (line : Z) : list byte :=
  let start := nth (Z.to_nat line) (Lines m) 0 in
  firstn (Z.to_nat (lineStop m line - start))
         (skipn (Z.to_nat start) (Content m)).

(** Modelled from the spec: Mapper.positionToOffset. *)
Definition positionToOffset (m : Mapper) (p : Position) : result Z :=
  lineStart <- offsetOfLine (Lines m) (Line p) ;;
  byteColumn <- byteColumnForUtf16 (lineBytes m (Line p)) (Character p) ;;
  Ok (lineStart + byteColumn).

(** Modelled from the spec: Mapper.offsetToPosition. *)
Definition offsetToPosition (m : Mapper) (byteOffset : Z)
  : result Position :=
  line <- lineOfOffset (Lines m) (len (Content m)) byteOffset ;;
  lineStart <- offsetOfLine (Lines m) line ;;
  utf16Col <- utf16ColumnForByteColumn (lineBytes m line)
                                       (byteOffset - lineStart) ;;
  Ok (mkPosition line utf16Col).

(** The contents of [TestBytesOffset].  The first is "a", U+10400, "b";
    U+10400 encodes as F0 90 90 80 in UTF-8 and as the surrogate pair
    D801 DC00 in UTF-16. *)
Definition text_surrogate : list byte :=
  [x61; xf0; x90; x90; x80; x62].

(** "aaa\nbbb\n" *)
Definition text_two_lines : list byte :=
  [x61; x61; x61; x0a; x62; x62; x62; x0a].

(** "aaa\nbbb\n\n" *)
Definition text_blank_line : list byte :=
  [x61; x61; x61; x0a; x62; x62; x62; x0a; x0a].

End mapper.

(** ** Helpers of the LSP tests: folding ranges *)

(** A call of a Go function returns, or panics (here: an index or a
    slice bound out of range). *)
Inductive outcome (A : Type) : Type :=
| Returns (a : A)
| Panics.
Arguments Returns {A} a.
Arguments Panics {A}.

Module lsp_test.
Import mapper.

(** [protocol.FoldingRange], reduced to the fields the helpers read; the
    lines and characters are unsigned and only ever compared. *)
Record FoldingRange : Type := mkFoldingRange {
  StartLine : Z;
  StartCharacter : Z;
  EndLine : Z;
  EndCharacter : Z;
  Kind : string
}.

(** [conflict a b]: the start of [b] lies in [a], provided that [a] starts
    no later than [b]. *)
Definition conflict (a b : FoldingRange) : bool :=
  ((StartLine a <? StartLine b) ||
   ((StartLine a =? StartLine b) && (StartCharacter a <=? StartCharacter b)))
  &&
  ((EndLine a >? StartLine b) ||
   ((EndLine a =? StartLine b) && (EndCharacter a >? StartCharacter b))).

(** The innermost loop of [nonOverlappingRanges]: [canInsert] stays true
    unless a range of the set conflicts with [fRng]. *)
Fixpoint canInsert (set : list FoldingRange) (fRng : FoldingRange) : bool :=
  match set with
  | [] => true
  | rng :: rest => if conflict rng fRng then false else canInsert rest fRng
  end.

(** The loop over [i]: the index of the first set that takes [fRng], or
    [len(res)] when none does.  [sets] are the sets from index [i] on. *)
Fixpoint findSet (sets : list (list FoldingRange)) (fRng : FoldingRange)
  (i : nat) : nat :=
  match sets with
  | [] => i
  | set :: rest =>
      if canInsert set fRng then i else findSet rest fRng (S i)
  end.

(** [res[setNum] = append(res[setNum], fRng)]; an index out of range
    panics. *)
Fixpoint appendAt (res : list (list FoldingRange)) (setNum : nat)
  (fRng : FoldingRange) : outcome (list (list FoldingRange)) :=
  match res, setNum with
  | [], _ => Panics
  | set :: rest, O => Returns ((set ++ [fRng]) :: rest)
  | set :: rest, S n =>
      match appendAt rest n fRng with
      | Returns rest' => Returns (set :: rest')
      | Panics => Panics
      end
  end.

(** The body of the loop over [ranges]. *)
Definition place (res : list (list FoldingRange)) (fRng : FoldingRange)
  : outcome (list (list FoldingRange)) :=
  let setNum := findSet res fRng 0 in
  let res' := if (setNum =? List.length res)%nat then res ++ [[]] else res in
  appendAt res' setNum fRng.

(** [nonOverlappingRanges] starts from the nil slice and places the ranges
    in turn. *)
Definition nonOverlappingRanges (ranges : list FoldingRange)
  : outcome (list (list FoldingRange)) :=
  fold_left
    (fun acc fRng =>
       match acc with
       | Returns res => place res fRng
       | Panics => Panics
       end)
    ranges (Returns []).

(** The text that stands for a folded range. *)
Definition foldedText : list byte := [x3c; x3e].

(** [s[:hi]]; a bound out of range panics. *)
Definition slice_to (s : list byte) (hi : Z) : outcome (list byte) :=
  if (0 <=? hi) && (hi <=? len s) then Returns (firstn (Z.to_nat hi) s)
  else Panics.

(** [s[lo:]]; a bound out of range panics. *)
Definition slice_from (s : list byte) (lo : Z) : outcome (list byte) :=
  if (0 <=? lo) && (lo <=? len s) then Returns (skipn (Z.to_nat lo) s)
  else Panics.

Section FoldRanges.

(** [m.PositionPoint(p)] of the mapper [m], as the offset of the point it
    returns and its error. *)
Variable PositionPoint : Position -> Z * error.

(** The loop of [foldRanges]; [n] is one more than the loop variable [i],
    which runs from [len(ranges)-1] down to 0. *)
Fixpoint foldLoop (ranges : list FoldingRange) (n : nat) (res : list byte)
  : outcome (list byte * error) :=
  match n with
  | O => Returns (res, nil)
  | S i =>
      match nth_error ranges i with
      | None => Panics
      | Some r =>
          let (start, err) :=
            PositionPoint (mkPosition (StartLine r) (StartCharacter r)) in
          match err with
          | Errorf _ => Returns ([], err)
          | nil =>
              let (stop, err) :=
                PositionPoint (mkPosition (EndLine r) (EndCharacter r)) in
              match err with
              | Errorf _ => Returns ([], err)
              | nil =>
                  match slice_to res start, slice_from res stop with
                  | Returns a, Returns b =>
                      foldLoop ranges i (a ++ foldedText ++ b)
                  | _, _ => Panics
                  end
              end
          end
      end
  end.

(** [foldRanges] replaces every range of [contents] by [foldedText],
    from the last range to the first. *)
Definition foldRanges (contents : list byte) (ranges : list FoldingRange)
  : outcome (list byte * error) :=
  foldLoop ranges (List.length ranges) contents.

(** The mapper resolves the two ends of the range [r] to the interval [iv]
    of offsets, without error. *)
Definition resolves (r : FoldingRange) (iv : Z * Z) : Prop :=
  PositionPoint (mkPosition (StartLine r) (StartCharacter r)) = (fst iv, nil)
  /\
  PositionPoint (mkPosition (EndLine r) (EndCharacter r)) = (snd iv, nil).

End FoldRanges.

(** *** [applyTextDocumentEdits] *)

(** A Go [map[span.URI]string]; a URI is a string.  The nil map reads as
    the empty one. *)
Definition uri_map : Type := string -> option (list byte).

Definition empty_map : uri_map := fun _ => None.

(** [m[k] = v] *)
Definition map_insert (k : string) (v : list byte) (m : uri_map) : uri_map :=
  fun k' => if String.eqb k' k then Some v else m k'.

Section ApplyTextDocumentEdits.

(** [*protocol.Mapper] and [[]protocol.TextEdit] *)
Variable MapperT : Type.
Variable TextEdits : Type.

(** [protocol.TextDocumentEdit], reduced to the URI of its document and its
    edits. *)
Record TextDocumentEdit_struct : Type := mkTextDocumentEdit {
  TextDocument_URI : string;
  Edits : TextEdits
}.

(** [protocol.DocumentChanges], reduced to the pointer the helper reads. *)
Record DocumentChanges : Type := mkDocumentChanges {
  TextDocumentEdit : option TextDocumentEdit_struct
}.

(** [DocumentURI.SpanURI], [r.data.Mapper], [protocol.NewMapper] and
    [source.ApplyProtocolEdits] (its text and its error). *)
Variable SpanURI : string -> string.
Variable data_Mapper : string -> MapperT * error.
Variable protocol_NewMapper : string -> list byte -> MapperT.
Variable source_ApplyProtocolEdits :
  MapperT -> TextEdits -> list byte * error.

(** The loop of [applyTextDocumentEdits] over [edits], from the map [res];
    an error ends it with the nil map. *)
Fixpoint applyLoop (res : uri_map) (edits : list DocumentChanges)
  : uri_map * error :=
  match edits with
  | [] => (res, nil)
  | docEdits :: rest =>
      match TextDocumentEdit docEdits with
      | None => applyLoop res rest
      | Some tde =>
          let uri := SpanURI (TextDocument_URI tde) in
          let (m, err) :=
            match res uri with
            | Some content => (protocol_NewMapper uri content, nil)
            | None => data_Mapper uri
            end in
          match err with
          | Errorf _ => (empty_map, err)
          | nil =>
              let (patched, err) := source_ApplyProtocolEdits m (Edits tde) in
              match err with
              | Errorf _ => (empty_map, err)
              | nil => applyLoop (map_insert uri patched res) rest
              end
          end
      end
  end.

Definition applyTextDocumentEdits (edits : list DocumentChanges)
  : uri_map * error :=
  applyLoop empty_map edits.

(** What the edits of [edits] that are for the file [uri] make of it, one
    after the other: the first is applied to the mapper of the test data,
    every later one to the text the one before has produced.  [cur] is the
    text produced so far, if any. *)
Fixpoint file_result (uri : string) (cur : option (list byte))
  (edits : list DocumentChanges) : option (list byte) :=
  match edits with
  | [] => cur
  | docEdits :: rest =>
      match TextDocumentEdit docEdits with
      | None => file_result uri cur rest
      | Some tde =>
          if String.eqb (SpanURI (TextDocument_URI tde)) uri then
            let m :=
              match cur with
              | Some content => protocol_NewMapper uri content
              | None => fst (data_Mapper uri)
              end in
            file_result uri
              (Some (fst (source_ApplyProtocolEdits m (Edits tde)))) rest
          else file_result uri cur rest
      end
  end.

End ApplyTextDocumentEdits.

Arguments mkTextDocumentEdit {TextEdits} _ _.
Arguments TextDocument_URI {TextEdits} _.
Arguments Edits {TextEdits} _.
Arguments mkDocumentChanges {TextEdits} _.
Arguments TextDocumentEdit {TextEdits} _.
Arguments applyLoop {MapperT TextEdits} _ _ _ _ _ _.
Arguments applyTextDocumentEdits {MapperT TextEdits} _ _ _ _ _.
Arguments file_result {MapperT TextEdits} _ _ _ _ _ _ _.

(** Edits of two files, for a mapper that is its text and edits that
    append theirs. *)
Definition sample_edits : list (DocumentChanges (list byte)) :=
  [ mkDocumentChanges (Some (mkTextDocumentEdit "a.go" [x31]));
    mkDocumentChanges None;
    mkDocumentChanges (Some (mkTextDocumentEdit "b.go" [x32]));
    mkDocumentChanges (Some (mkTextDocumentEdit "a.go" [x33])) ].

Definition sample_apply (edits : list (DocumentChanges (list byte)))
  : uri_map * error :=
  applyTextDocumentEdits
    (fun uri => uri)
    (fun _ => ([x61], nil))
    (fun _ content => content)
    (fun m e => (m ++ e, nil))
    edits.

(** *** Notions the properties are stated with *)

(** The order of positions: by line, then by character. *)
Definition pos_le (p q : Z * Z) : Prop :=
  fst p < fst q \/ (fst p = fst q /\ snd p <= snd q).

Definition pos_lt (p q : Z * Z) : Prop :=
  fst p < fst q \/ (fst p = fst q /\ snd p < snd q).

Definition start_pos (r : FoldingRange) : Z * Z :=
  (StartLine r, StartCharacter r).

Definition end_pos (r : FoldingRange) : Z * Z :=
  (EndLine r, EndCharacter r).

(** Every range of the later set conflicts with a range of the earlier
    one. *)
Definition refused_by (s1 s2 : list FoldingRange) : Prop :=
  forall y, In y s2 -> exists x, In x s1 /\ conflict x y = true.

(** Two ranges overlap when each starts before the other ends. *)
Definition overlap (a b : FoldingRange) : Prop :=
  pos_lt (start_pos a) (end_pos b) /\ pos_lt (start_pos b) (end_pos a).

(** [contents] from offset [pos] on, with every interval of [ivs] replaced
    by [foldedText], read from left to right. *)
Fixpoint replaced (contents : list byte) (pos : Z) (ivs : list (Z * Z))
  : list byte :=
  match ivs with
  | [] => skipn (Z.to_nat pos) contents
  | (s, e) :: rest =>
      firstn (Z.to_nat (s - pos)) (skipn (Z.to_nat pos) contents)
      ++ foldedText ++ replaced contents e rest
  end.

(** The intervals [ivs] lie in [[lo, hi]], each is well formed, and each
    ends before the next one starts. *)
Fixpoint chained (lo hi : Z) (ivs : list (Z * Z)) : Prop :=
  match ivs with
  | [] => lo <= hi
  | (s, e) :: rest => lo <= s <= e /\ chained e hi rest
  end.

(** The number of bytes the intervals [ivs] cover. *)
Fixpoint covered (ivs : list (Z * Z)) : Z :=
  match ivs with
  | [] => 0
  | (s, e) :: rest => (e - s) + covered rest
  end.

(** A mapper of the one-line content "abcdefgh". *)
Definition one_line_mapper (p : Position) : Z * error :=
  if (Line p =? 0) && (0 <=? Character p) && (Character p <=? 8)
  then (Character p, nil)
  else (-1, Errorf "position out of range").

Definition sample_text : list byte := [x61; x62; x63; x64; x65; x66; x67; x68].

Definition sample_ranges : list FoldingRange :=
  [ mkFoldingRange 0 1 0 3 "";
    mkFoldingRange 0 2 0 5 "";
    mkFoldingRange 0 3 0 4 "";
    mkFoldingRange 0 6 0 8 "" ].

End lsp_test.

(** * Properties of package safetoken *)

Section GoIntFacts.
Import GoInt.

Lemma min_int_negative : min_int <= -1.
Proof. unfold min_int, bits. simpl. lia. Qed.

Lemma max_int_positive : 1 <= max_int.
Proof. unfold max_int, bits. simpl. lia. Qed.

(** An [int] that holds the mathematical result is not changed. *)
Lemma wrap_small (x : Z) : is_int x -> wrap x = x.
Proof.
  unfold is_int, wrap, modulus, min_int, max_int, bits. intros Hx.
  rewrite Z.mod_small; simpl in *; lia.
Qed.

(** One more than the largest [int] is the smallest one. *)
Lemma wrap_overflow : wrap (max_int + 1) = min_int.
Proof. reflexivity. Qed.

End GoIntFacts.

Section SafetokenFacts.
Import token safetoken.

Variable f : File.
Hypothesis Hwf : wf f.

(** On a well-formed file the end position [base+size] is computed
    without overflow. *)
Lemma end_no_overflow : GoInt.add (Base f) (Size f) = Base f + Size f.
Proof.
  destruct Hwf as (Hb & Hs & He). pose proof min_int_negative.
  unfold GoInt.add. apply wrap_small. unfold GoInt.is_int. lia.
Qed.

(** Neither is the position one byte beyond it. *)
Lemma past_end_no_overflow :
  GoInt.add (GoInt.add (Base f) (Size f)) 1 = Base f + Size f + 1.
Proof.
  destruct Hwf as (Hb & Hs & He). pose proof min_int_negative.
  rewrite end_no_overflow. unfold GoInt.add. apply wrap_small.
  unfold GoInt.is_int. lia.
Qed.

Lemma inRange_spec (pos : token.Pos) :
  inRange f pos = true <-> Base f <= pos <= Base f + Size f.
Proof.
  unfold inRange. rewrite end_no_overflow, andb_true_iff, !Z.leb_le.
  tauto.
Qed.

(** [Offset] on the positions of the file. *)
Lemma Offset_inside (pos : token.Pos) :
  Base f <= pos <= Base f + Size f ->
  Offset f pos = (pos - Base f, nil).
Proof.
  intros Hpos. unfold Offset.
  destruct (inRange f pos) eqn:Hin.
  - simpl. unfold GoInt.sub. rewrite wrap_small; [reflexivity|].
    destruct Hwf as (Hb & Hs & He). pose proof min_int_negative.
    unfold GoInt.is_int. lia.
  - apply inRange_spec in Hpos. congruence.
Qed.

(** [Offset] one byte beyond the end of the file. *)
Lemma Offset_past_end : Offset f (Base f + Size f + 1) = (Size f, nil).
Proof.
  unfold Offset.
  destruct (inRange f (Base f + Size f + 1)) eqn:Hin.
  - apply inRange_spec in Hin. destruct Hwf as (Hb & Hs & He). lia.
  - simpl. rewrite past_end_no_overflow, Z.eqb_refl. reflexivity.
Qed.

(** [Offset] everywhere else. *)
Lemma Offset_outside (pos : token.Pos) :
  pos < Base f \/ Base f + Size f + 1 < pos ->
  Offset f pos = (-1, Offset_error f pos).
Proof.
  intros Hpos. unfold Offset.
  destruct (inRange f pos) eqn:Hin.
  - apply inRange_spec in Hin. lia.
  - simpl. rewrite past_end_no_overflow. destruct Hwf as (Hb & Hs & He).
    destruct (Z.eqb_spec pos (Base f + Size f + 1)); [lia | reflexivity].
Qed.

(** [Pos] on the offsets of the file. *)
Lemma Pos_inside (offset : Z) :
  0 <= offset <= Size f -> Pos f offset = (Base f + offset, nil).
Proof.
  intros Ho. unfold Pos.
  replace ((0 <=? offset) && (offset <=? Size f)) with true
    by (symmetry; apply andb_true_iff; rewrite !Z.leb_le; lia).
  simpl. unfold GoInt.add. rewrite wrap_small; [reflexivity|].
  destruct Hwf as (Hb & Hs & He). pose proof min_int_negative.
  unfold GoInt.is_int. lia.
Qed.

End SafetokenFacts.

(** [Pos] everywhere else; this needs nothing of the file. *)
Lemma Pos_outside (f : token.File) (offset : Z) :
  ~ (0 <= offset <= token.Size f) ->
  safetoken.Pos f offset = (token.NoPos, safetoken.Pos_error f offset).
Proof.
  intros Ho. unfold safetoken.Pos.
  destruct ((0 <=? offset) && (offset <=? token.Size f)) eqn:E.
  - apply andb_true_iff in E. rewrite !Z.leb_le in E. tauto.
  - reflexivity.
Qed.

Lemma sample_file_wf : token.wf sample_file.
Proof. unfold token.wf. simpl. repeat split; try lia. discriminate. Defined.

(** C1: for every file, [Offset] at [base+size+1], exactly one byte past the
    registered end, succeeds and returns [size]; at [base+size+2] it fails
    with the out-of-range error (also when the addition that computes that
    position has wrapped around). *)
Theorem Offset_eof_tolerance (f : token.File) :
  token.wf f ->
  let b := token.Base f in
  let s := token.Size f in
  safetoken.Offset f (b + s + 1) = (s, nil) /\
  safetoken.Offset f (b + s + 2) = (-1, safetoken.Offset_error f (b + s + 2)) /\
  safetoken.Offset f (GoInt.wrap (b + s + 2)) =
    (-1, safetoken.Offset_error f (GoInt.wrap (b + s + 2))).
Proof.
  intros Hwf b s. subst b s. split; [|split].
  - apply Offset_past_end; assumption.
  - apply Offset_outside; [assumption | lia].
  - apply Offset_outside; [assumption|].
    destruct Hwf as (Hb & Hs & He). pose proof min_int_negative.
    destruct (Z.eq_dec (token.Base f + token.Size f + 1) GoInt.max_int)
      as [E|E].
    + left.
      replace (token.Base f + token.Size f + 2) with (GoInt.max_int + 1)
        by lia.
      rewrite wrap_overflow. lia.
    + right. rewrite wrap_small; [lia | unfold GoInt.is_int; lia].
Qed.

Lemma Offset_eof_tolerance_witness :
  token.wf sample_file /\
  safetoken.Offset sample_file 12 = (10, nil) /\
  safetoken.Offset sample_file 13 =
    (-1, safetoken.Offset_error sample_file 13) /\
  safetoken.Offset sample_file (GoInt.wrap 13) =
    (-1, safetoken.Offset_error sample_file (GoInt.wrap 13)).
Proof.
  split; [exact sample_file_wf|].
  exact (Offset_eof_tolerance sample_file sample_file_wf).
Defined.

(** C2: for every file and every position [pos] with
    [base <= pos <= base+size], [Offset] succeeds and returns [pos - base];
    for every [pos] outside [[base, base+size+1]] it fails, with -1 and an
    error whose message names the position and the interval
    [[base:base+size]] of the file. *)
Theorem Offset_in_range (f : token.File) (pos : token.Pos) :
  token.wf f ->
  let b := token.Base f in
  let s := token.Size f in
  (b <= pos <= b + s -> safetoken.Offset f pos = (pos - b, nil)) /\
  (pos < b \/ b + s + 1 < pos ->
   safetoken.Offset f pos =
     (-1, Errorf ("pos " ++ GoInt.fmt_d pos ++ " is not in range [" ++
                  GoInt.fmt_d b ++ ":" ++ GoInt.fmt_d (b + s) ++
                  "] of file " ++ token.Name f))).
Proof.
  intros Hwf b s. subst b s. split; intros Hpos.
  - apply Offset_inside; assumption.
  - rewrite Offset_outside by assumption.
    unfold safetoken.Offset_error. rewrite end_no_overflow by assumption.
    reflexivity.
Qed.

Lemma Offset_in_range_witness :
  token.wf sample_file /\
  safetoken.Offset sample_file 5 = (4, nil) /\
  safetoken.Offset sample_file 0 =
    (-1, Errorf "pos 0 is not in range [1:11] of file a.go").
Proof.
  split; [exact sample_file_wf|]. split.
  - destruct (Offset_in_range sample_file 5 sample_file_wf) as [H _].
    apply H. simpl. lia.
  - destruct (Offset_in_range sample_file 0 sample_file_wf) as [_ H].
    apply H. simpl. lia.
Defined.

(** C3: for every file, [Pos] succeeds exactly when [0 <= offset <= size]
    and then returns [base+offset]; otherwise it fails with [NoPos] and its
    out-of-range error.  There is no tolerance beyond the end:
    [Pos f (size+1)] fails. *)
Theorem Pos_in_range (f : token.File) (offset : Z) :
  token.wf f ->
  let b := token.Base f in
  let s := token.Size f in
  (0 <= offset <= s -> safetoken.Pos f offset = (b + offset, nil)) /\
  (snd (safetoken.Pos f offset) = nil <-> 0 <= offset <= s) /\
  (~ (0 <= offset <= s) ->
   safetoken.Pos f offset =
     (token.NoPos,
      Errorf ("offset " ++ GoInt.fmt_d offset ++ " is not in range for file "
              ++ token.Name f ++ " of size " ++ GoInt.fmt_d s))) /\
  safetoken.Pos f (s + 1) = (token.NoPos, safetoken.Pos_error f (s + 1)).
Proof.
  intros Hwf b s. subst b s. split; [|split; [|split]].
  - intros Ho. apply Pos_inside; assumption.
  - split.
    + intros Hnil.
      destruct (Z_le_dec 0 offset) as [H0|H0];
        [destruct (Z_le_dec offset (token.Size f)) as [H1|H1]; [lia|]|];
        rewrite Pos_outside in Hnil by lia; discriminate.
    + intros Ho. rewrite Pos_inside by assumption. reflexivity.
  - intros Ho. rewrite Pos_outside by assumption. reflexivity.
  - apply Pos_outside. lia.
Qed.

Lemma Pos_in_range_witness :
  token.wf sample_file /\
  safetoken.Pos sample_file 10 = (11, nil) /\
  safetoken.Pos sample_file 11 =
    (token.NoPos,
     Errorf "offset 11 is not in range for file a.go of size 10").
Proof.
  split; [exact sample_file_wf|]. split.
  - destruct (Pos_in_range sample_file 10 sample_file_wf) as (H & _).
    apply H. simpl. lia.
  - destruct (Pos_in_range sample_file 11 sample_file_wf) as (_ & _ & H & _).
    apply H. simpl. lia.
Defined.

(** The two shapes of a result of [Offset]. *)
Lemma Offset_shape (f : token.File) (pos : token.Pos) :
  (exists off, safetoken.Offset f pos = (off, nil)) \/
  (exists msg, safetoken.Offset f pos = (-1, Errorf msg)).
Proof.
  unfold safetoken.Offset.
  destruct (negb (safetoken.inRange f pos)).
  - destruct (pos =? _).
    + left. eexists. reflexivity.
    + right. unfold safetoken.Offset_error. eexists. reflexivity.
  - left. eexists. reflexivity.
Qed.



(** C9: for every file and every offset [o] with [0 <= o <= size],
    [Offset f (Pos f o)] succeeds and returns [o]; [Pos f (Offset f pos)]
    gives back [pos] for [base <= pos <= base+size], but the tolerated
    [pos = base+size+1] comes back as [base+size]. *)
Theorem Offset_Pos_round_trip (f : token.File) :
  token.wf f ->
  let b := token.Base f in
  let s := token.Size f in
  (forall o, 0 <= o <= s ->
     snd (safetoken.Pos f o) = nil /\
     safetoken.Offset f (fst (safetoken.Pos f o)) = (o, nil)) /\
  (forall pos, b <= pos <= b + s ->
     snd (safetoken.Offset f pos) = nil /\
     safetoken.Pos f (fst (safetoken.Offset f pos)) = (pos, nil)) /\
  (snd (safetoken.Offset f (b + s + 1)) = nil /\
   safetoken.Pos f (fst (safetoken.Offset f (b + s + 1))) = (b + s, nil) /\
   b + s <> b + s + 1).
Proof.
  intros Hwf b s. subst b s. pose proof Hwf as (Hb & Hs & He).
  split; [|split].
  - intros o Ho. rewrite Pos_inside by assumption. simpl. split; [reflexivity|].
    rewrite Offset_inside by (assumption || lia). f_equal. lia.
  - intros pos Hpos. rewrite Offset_inside by assumption. simpl.
    split; [reflexivity|].
    rewrite Pos_inside by (assumption || lia). f_equal. lia.
  - rewrite Offset_past_end by assumption. simpl. split; [reflexivity|].
    split; [|lia]. apply Pos_inside; [assumption | lia].
Qed.

Lemma Offset_Pos_round_trip_witness :
  token.wf sample_file /\
  safetoken.Offset sample_file (fst (safetoken.Pos sample_file 10)) =
    (10, nil) /\
  safetoken.Pos sample_file (fst (safetoken.Offset sample_file 11)) =
    (11, nil) /\
  safetoken.Pos sample_file (fst (safetoken.Offset sample_file 12)) =
    (11, nil).
Proof.
  split; [exact sample_file_wf|].
  destruct (Offset_Pos_round_trip sample_file sample_file_wf) as (H1 & H2 & H3).
  split; [|split].
  - apply H1. simpl. lia.
  - apply H2. simpl. lia.
  - apply H3.
Defined.

(** C10: whenever [Offset] succeeds, the offset it returns lies in
    [[0, size]]; at the tolerated position one byte beyond the end it is
    exactly [size]; whenever it fails, it returns -1 with a non-nil
    error. *)
Theorem Offset_result_bounds (f : token.File) (pos : token.Pos) :
  token.wf f ->
  (snd (safetoken.Offset f pos) = nil ->
   0 <= fst (safetoken.Offset f pos) <= token.Size f) /\
  fst (safetoken.Offset f (token.Base f + token.Size f + 1)) = token.Size f /\
  (snd (safetoken.Offset f pos) <> nil ->
   exists msg, safetoken.Offset f pos = (-1, Errorf msg)).
Proof.
  intros Hwf. pose proof Hwf as (Hb & Hs & He). split; [|split].
  - intros Hnil.
    destruct (Z_lt_dec pos (token.Base f)) as [Hlo|Hlo].
    { rewrite Offset_outside in Hnil by (assumption || lia). discriminate. }
    destruct (Z_le_dec pos (token.Base f + token.Size f)) as [Hhi|Hhi].
    { rewrite Offset_inside by (assumption || lia). simpl. lia. }
    destruct (Z.eq_dec pos (token.Base f + token.Size f + 1)) as [E|E].
    { subst pos. rewrite Offset_past_end by assumption. simpl. lia. }
    rewrite Offset_outside in Hnil by (assumption || lia). discriminate.
  - rewrite Offset_past_end by assumption. reflexivity.
  - intros Herr.
    destruct (Offset_shape f pos) as [[off H]|H].
    + rewrite H in Herr. simpl in Herr. congruence.
    + exact H.
Qed.

Lemma Offset_result_bounds_witness :
  token.wf sample_file /\
  0 <= fst (safetoken.Offset sample_file 12) <= 10 /\
  (exists msg, safetoken.Offset sample_file 13 = (-1, Errorf msg)).
Proof.
  split; [exact sample_file_wf|]. split.
  - destruct (Offset_result_bounds sample_file 12 sample_file_wf) as (H & _).
    apply H. reflexivity.
  - destruct (Offset_result_bounds sample_file 13 sample_file_wf)
      as (_ & _ & H).
    apply H. simpl. discriminate.
Defined.

(** * Properties of the protocol mapper *)

Import mapper.

(** C5: on the one-line content "a", U+10400, "b" (1, 4 and 1 bytes; the
    middle character is a surrogate pair in UTF-16) the UTF-16 columns 0, 1,
    2, 3, 4 map to the byte offsets 0, 1, 1, 5, 6: column 2, the second unit
    of the pair, is rounded down to the start of the character.  Column 5
    fails. *)
Theorem surrogate_rounding :
  let m := NewMapper text_surrogate in
  runes text_surrogate = [1; 4; 1]%nat /\
  positionToOffset m (mkPosition 0 0) = Ok 0 /\
  positionToOffset m (mkPosition 0 1) = Ok 1 /\
  positionToOffset m (mkPosition 0 2) = Ok 1 /\
  positionToOffset m (mkPosition 0 3) = Ok 5 /\
  positionToOffset m (mkPosition 0 4) = Ok 6 /\
  positionToOffset m (mkPosition 0 5) = Fail InvalidColumn.
Proof. repeat split. Qed.

(** C6: on the content "aaa\nbbb\n" the positions (0,3), (1,0), (1,3) and
    (2,0) map to the offsets 3, 4, 7 and 8, and (0,4), (1,4) and (2,1) fail;
    on "aaa\nbbb\n\n" the position (2,0) still maps to 8. *)
Theorem line_boundaries :
  let m := NewMapper text_two_lines in
  positionToOffset m (mkPosition 0 3) = Ok 3 /\
  positionToOffset m (mkPosition 0 4) = Fail InvalidColumn /\
  positionToOffset m (mkPosition 1 0) = Ok 4 /\
  positionToOffset m (mkPosition 1 3) = Ok 7 /\
  positionToOffset m (mkPosition 1 4) = Fail InvalidColumn /\
  positionToOffset m (mkPosition 2 0) = Ok 8 /\
  positionToOffset m (mkPosition 2 1) = Fail InvalidColumn /\
  positionToOffset (NewMapper text_blank_line) (mkPosition 2 0) = Ok 8.
Proof. repeat split. Qed.

(** ** Walks over character lengths *)

Lemma utf16_units_pos (w : nat) : 1 <= utf16_units w.
Proof. unfold utf16_units. destruct (w =? 4)%nat; lia. Qed.

Lemma existsb_eqb_In (o : Z) (l : list Z) :
  existsb (Z.eqb o) l = true <-> In o l.
Proof.
  rewrite existsb_exists. split.
  - intros (x & Hx & E). apply Z.eqb_eq in E. subst. assumption.
  - intros H. exists o. split; [assumption | apply Z.eqb_refl].
Qed.

(** The first character starts where the walk starts. *)
Lemma rune_starts_head (ws : list nat) (off : Z) : In off (rune_starts ws off).
Proof. destruct ws; simpl; auto. Qed.

(** No character starts before the walk does. *)
Lemma rune_starts_lower (ws : list nat) :
  forall off o, In o (rune_starts ws off) -> off <= o.
Proof.
  induction ws as [|w ws IH]; simpl; intros off o [E|H]; try lia.
  apply IH in H. lia.
Qed.

(** Starting the walk [d] bytes later moves every start by [d]. *)
Lemma rune_starts_shift (ws : list nat) :
  forall off d o,
    In o (rune_starts ws off) <-> In (o + d) (rune_starts ws (off + d)).
Proof.
  induction ws as [|w ws IH]; simpl; intros off d o.
  - split; intros [E|[]]; left; lia.
  - rewrite (IH (off + Z.of_nat w) d o).
    replace (off + Z.of_nat w + d) with (off + d + Z.of_nat w) by lia.
    split; (intros [E|H]; [left; lia | right; assumption]).
Qed.

Lemma total_bytes_app (a b : list nat) :
  total_bytes (a ++ b) = total_bytes a + total_bytes b.
Proof. induction a as [|w a IH]; simpl; lia. Qed.

Lemma total_bytes_nonneg (ws : list nat) : 0 <= total_bytes ws.
Proof. induction ws as [|w ws IH]; simpl; lia. Qed.

(** No character starts after the end of the last one. *)
Lemma rune_starts_upper (ws : list nat) :
  forall off o, In o (rune_starts ws off) -> o <= off + total_bytes ws.
Proof.
  induction ws as [|w ws IH]; simpl; intros off o [E|H]; try lia.
  - pose proof (total_bytes_nonneg ws). lia.
  - apply IH in H. lia.
Qed.

Lemma rune_starts_last (ws : list nat) :
  forall off, In (off + total_bytes ws) (rune_starts ws off).
Proof.
  induction ws as [|w ws IH]; simpl; intros off.
  - left. lia.
  - right. replace (off + (Z.of_nat w + total_bytes ws))
      with (off + Z.of_nat w + total_bytes ws) by lia. apply IH.
Qed.

(** The starts of a concatenation are those of its two parts. *)
Lemma rune_starts_app (a b : list nat) :
  forall off o,
    In o (rune_starts (a ++ b) off) <->
    In o (rune_starts a off) \/ In o (rune_starts b (off + total_bytes a)).
Proof.
  induction a as [|w a IH]; simpl; intros off o.
  - rewrite Z.add_0_r. split.
    + intros H. right. assumption.
    + intros [[E|[]]|H]; [subst; apply rune_starts_head | assumption].
  - rewrite IH.
    replace (off + Z.of_nat w + total_bytes a)
      with (off + (Z.of_nat w + total_bytes a)) by lia.
    tauto.
Qed.

(** From a character boundary, the two walks undo each other, whatever
    has been consumed before. *)
Lemma walks_round_trip (ws : list nat) :
  Forall (fun w => (1 <= w)%nat) ws ->
  forall byteOff count o,
    In o (rune_starts ws byteOff) ->
    exists u,
      utf16_walk ws o byteOff count = Ok u /\
      count <= u /\
      byte_walk ws u byteOff count = Ok o.
Proof.
  induction 1 as [|w ws Hw Hws IH]; intros byteOff count o Hin.
  - destruct Hin as [E|[]]. subst o. exists count. simpl.
    rewrite !Z.eqb_refl. repeat split. lia.
  - simpl in Hin. destruct Hin as [E|Hin].
    + subst o. exists count. simpl. rewrite !Z.eqb_refl. repeat split. lia.
    + pose proof (rune_starts_lower _ _ _ Hin) as Hlo.
      pose proof (utf16_units_pos w) as Hu.
      destruct (IH (byteOff + Z.of_nat w) (count + utf16_units w) o Hin)
        as (u & Hfwd & Hle & Hback).
      exists u. simpl.
      replace (byteOff =? o) with false by (symmetry; apply Z.eqb_neq; lia).
      replace (o <? byteOff + Z.of_nat w) with false
        by (symmetry; apply Z.ltb_ge; lia).
      replace (count =? u) with false by (symmetry; apply Z.eqb_neq; lia).
      replace (u <? count + utf16_units w) with false
        by (symmetry; apply Z.ltb_ge; lia).
      repeat split; (assumption || lia).
Qed.

(** ** Decoding *)

Arguments rune_len : simpl never.

(** Case analysis on every comparison of the goal, as in the branches of
    [rune_len]. *)
Ltac split_ltb :=
  repeat match goal with
         | |- context [(?a <? ?b)%Z] => destruct (a <? b)%Z
         end.

(** A character takes at least one byte and no more than there are. *)
Lemma rune_len_bounds (l : list byte) :
  l <> [] -> (1 <= rune_len l <= List.length l)%nat.
Proof.
  destruct l as [|b0 t]; [congruence|]. intros _. unfold rune_len.
  split_ltb;
    destruct t as [|b1 [|b2 [|b3 t]]]; simpl;
    repeat (destruct (is_cont _); simpl); lia.
Qed.

Lemma runes_fuel_step (fuel : nat) (b : byte) (t : list byte) :
  runes_fuel (S fuel) (b :: t) =
  rune_len (b :: t) :: runes_fuel fuel (skipn (rune_len (b :: t)) (b :: t)).
Proof. reflexivity. Qed.

(** Fuel beyond the length of the input changes nothing. *)
Lemma runes_fuel_enough :
  forall n m l,
    (List.length l <= n)%nat -> (List.length l <= m)%nat ->
    runes_fuel n l = runes_fuel m l.
Proof.
  induction n as [|n IH]; intros m l Hn Hm.
  - destruct l; [|simpl in Hn; lia]. destruct m; reflexivity.
  - destruct l as [|b t]; [destruct m; reflexivity|].
    destruct m as [|m]; [simpl in Hm; lia|].
    rewrite !runes_fuel_step. f_equal.
    assert (b :: t <> []) as Hne by congruence.
    pose proof (rune_len_bounds _ Hne) as Hw.
    apply IH; rewrite length_skipn; cbn [List.length] in *; lia.
Qed.

(** The decoding equation: one character, then the rest. *)
Lemma runes_cons (l : list byte) :
  l <> [] -> runes l = rune_len l :: runes (skipn (rune_len l) l).
Proof.
  intros Hne. pose proof (rune_len_bounds _ Hne) as Hw.
  destruct l as [|b t]; [congruence|]. unfold runes.
  change (List.length (b :: t)) with (S (List.length t)).
  rewrite runes_fuel_step. f_equal.
  apply runes_fuel_enough; rewrite ?length_skipn; cbn [List.length] in *; lia.
Qed.

Lemma runes_nil : runes [] = [].
Proof. reflexivity. Qed.

(** Induction along the decoding. *)
Lemma runes_ind (P : list byte -> Prop) :
  P [] ->
  (forall l, l <> [] -> P (skipn (rune_len l) l) -> P l) ->
  forall l, P l.
Proof.
  intros Hnil Hstep.
  assert (forall n l, (List.length l <= n)%nat -> P l) as H.
  { induction n as [|n IH]; intros l Hl.
    - destruct l; [assumption | simpl in Hl; lia].
    - destruct l as [|b t]; [assumption|].
      assert (b :: t <> []) as Hne by congruence.
      pose proof (rune_len_bounds _ Hne) as Hw.
      apply Hstep; [assumption|]. apply IH.
      rewrite length_skipn. cbn [List.length] in *. lia. }
  intros l. apply (H (List.length l)). lia.
Qed.

(** Every decoded character has at least one byte. *)
Lemma runes_positive (l : list byte) :
  Forall (fun w => (1 <= w)%nat) (runes l).
Proof.
  induction l as [|l Hne IH] using runes_ind.
  - constructor.
  - rewrite runes_cons by assumption. constructor; [|assumption].
    apply rune_len_bounds. assumption.
Qed.

(** The characters of [l] occupy all of [l]. *)
Lemma runes_total (l : list byte) : total_bytes (runes l) = len l.
Proof.
  induction l as [|l Hne IH] using runes_ind.
  - reflexivity.
  - rewrite runes_cons by assumption. simpl. rewrite IH.
    pose proof (rune_len_bounds _ Hne) as Hw.
    unfold len. rewrite length_skipn. lia.
Qed.

(** C8: for every line and every byte column on a character boundary of it
    (hence within the line), [utf16ColumnForByteColumn] succeeds and
    [byteColumnForUtf16] maps its result back to the byte column. *)
Theorem column_round_trip (lineBytes : list byte) (byteCol : Z) :
  is_char_boundary lineBytes byteCol = true ->
  0 <= byteCol <= len lineBytes /\
  exists utf16Col,
    utf16ColumnForByteColumn lineBytes byteCol = Ok utf16Col /\
    byteColumnForUtf16 lineBytes utf16Col = Ok byteCol.
Proof.
  unfold is_char_boundary. rewrite existsb_eqb_In. intros Hin. split.
  - pose proof (rune_starts_lower _ _ _ Hin).
    pose proof (rune_starts_upper _ _ _ Hin) as Hup.
    rewrite runes_total in Hup. lia.
  - destruct (walks_round_trip _ (runes_positive lineBytes) 0 0 _ Hin)
      as (u & Hfwd & Hle & Hback).
    exists u. unfold utf16ColumnForByteColumn, byteColumnForUtf16.
    split; [assumption|].
    replace (u <? 0) with false by (symmetry; apply Z.ltb_ge; lia).
    assumption.
Qed.

Lemma column_round_trip_witness :
  is_char_boundary text_surrogate 5 = true /\
  0 <= 5 <= len text_surrogate /\
  exists utf16Col,
    utf16ColumnForByteColumn text_surrogate 5 = Ok utf16Col /\
    byteColumnForUtf16 text_surrogate utf16Col = Ok 5.
Proof.
  split; [reflexivity|].
  apply (column_round_trip text_surrogate 5). reflexivity.
Defined.

(** ** Characters and line terminators *)

(** The bytes of a character after its first are continuation bytes. *)
Lemma rune_len_cont (l : list byte) (k : nat) :
  (1 <= k < rune_len l)%nat -> is_cont (nth k l x00) = true.
Proof.
  destruct l as [|b0 t]; unfold rune_len; [lia|]. split_ltb;
    destruct t as [|b1 [|b2 [|b3 t]]];
    try destruct (is_cont b1) eqn:E1;
    try destruct (is_cont b2) eqn:E2;
    try destruct (is_cont b3) eqn:E3;
    simpl; try lia;
    destruct k as [|[|[|[|k]]]]; simpl; intros; (assumption || lia).
Qed.

Lemma terminator_not_cont (b : byte) :
  is_terminator b = true -> is_cont b = false.
Proof.
  unfold is_terminator, is_cont. intros H. apply Z.eqb_eq in H.
  rewrite H. reflexivity.
Qed.

(** A line terminator is a character of its own. *)
Lemma terminator_rune_len (b : byte) (t : list byte) :
  is_terminator b = true -> rune_len (b :: t) = 1%nat.
Proof.
  unfold is_terminator, rune_len. intros H. apply Z.eqb_eq in H.
  rewrite H. reflexivity.
Qed.

(** What follows a byte that continues no character does not change how
    the bytes before it decode. *)
Lemma rune_len_app (line : list byte) (b : byte) (rest : list byte) :
  line <> [] -> is_cont b = false ->
  rune_len (line ++ b :: rest) = rune_len line.
Proof.
  intros Hne Hb.
  destruct line as [|a0 [|a1 [|a2 [|a3 t]]]]; [congruence| | | |];
    cbn [app]; unfold rune_len; split_ltb; try reflexivity;
    destruct rest as [|r1 [|r2 rest]];
    rewrite ?Hb, ?andb_false_r; simpl; reflexivity.
Qed.

Lemma runes_app (b : byte) (rest : list byte) :
  is_cont b = false ->
  forall line, runes (line ++ b :: rest) = runes line ++ runes (b :: rest).
Proof.
  intros Hb line. induction line as [|line Hne IH] using runes_ind.
  - reflexivity.
  - pose proof (rune_len_bounds _ Hne) as Hw.
    assert (line ++ b :: rest <> []) as Hne' by (destruct line; discriminate).
    rewrite (runes_cons _ Hne'), (runes_cons _ Hne).
    rewrite rune_len_app by assumption.
    rewrite skipn_app.
    replace (rune_len line - List.length line)%nat with 0%nat by lia.
    cbn [skipn app]. rewrite IH. reflexivity.
Qed.

(** The decoding of the whole starts afresh at every character boundary. *)
Lemma boundary_split (l : list byte) :
  forall s,
    In s (rune_starts (runes l) 0) ->
    exists ws,
      runes l = ws ++ runes (skipn (Z.to_nat s) l) /\ total_bytes ws = s.
Proof.
  induction l as [|l Hne IH] using runes_ind; intros s Hin.
  - destruct Hin as [E|[]]. subst s. exists []. split; reflexivity.
  - rewrite (runes_cons _ Hne) in Hin. cbn [rune_starts] in Hin.
    destruct Hin as [E|Hin].
    + subst s. exists []. split; reflexivity.
    + pose proof (rune_starts_lower _ _ _ Hin) as Hlo.
      apply (rune_starts_shift _ _ (- Z.of_nat (rune_len l))) in Hin.
      replace (0 + Z.of_nat (rune_len l) + - Z.of_nat (rune_len l))
        with 0 in Hin by lia.
      destruct (IH _ Hin) as (ws & Hws & Htot).
      exists (rune_len l :: ws). split.
      * rewrite (runes_cons _ Hne). cbn [app]. f_equal.
        rewrite Hws. f_equal. f_equal. rewrite skipn_skipn. f_equal. lia.
      * cbn [total_bytes]. lia.
Qed.

(** The byte after a line terminator starts a character. *)
Lemma terminator_boundary (l : list byte) :
  forall j,
    (j < List.length l)%nat ->
    is_terminator (nth j l x00) = true ->
    In (Z.of_nat j + 1) (rune_starts (runes l) 0).
Proof.
  induction l as [|l Hne IH] using runes_ind; intros j Hj Hnl.
  - simpl in Hj. lia.
  - pose proof (rune_len_bounds _ Hne) as Hw.
    rewrite (runes_cons _ Hne). cbn [rune_starts]. right.
    destruct (Nat.lt_ge_cases j (rune_len l)) as [Hlt|Hge].
    + assert (j = 0%nat) as ->.
      { destruct j; [reflexivity|].
        pose proof (terminator_not_cont _ Hnl) as Hc.
        rewrite rune_len_cont in Hc by lia. discriminate. }
      destruct l as [|b t]; [congruence|]. cbn [nth] in Hnl.
      rewrite (terminator_rune_len _ _ Hnl). apply rune_starts_head.
    + apply (rune_starts_shift _ _ (- Z.of_nat (rune_len l))).
      replace (0 + Z.of_nat (rune_len l) + - Z.of_nat (rune_len l))
        with 0 by lia.
      replace (Z.of_nat j + 1 + - Z.of_nat (rune_len l))
        with (Z.of_nat (j - rune_len l) + 1) by lia.
      apply IH.
      * rewrite length_skipn. lia.
      * rewrite nth_skipn.
        replace (rune_len l + (j - rune_len l))%nat with j by lia.
        assumption.
Qed.

(** ** The line table *)

Lemma len_cons {A : Type} (a : A) (l : list A) : len (a :: l) = len l + 1.
Proof. unfold len. cbn [List.length]. lia. Qed.

(** Every entry the scan records follows a line terminator. *)
Lemma scan_spec (content : list byte) :
  forall off e,
    In e (scan content off) ->
    off < e <= off + len content /\
    is_terminator (nth (Z.to_nat (e - off - 1)) content x00) = true.
Proof.
  induction content as [|b rest IH]; intros off e Hin.
  - destruct Hin.
  - rewrite len_cons. cbn [scan] in Hin.
    assert (In e (scan rest (off + 1)) ->
            off < e <= off + (len rest + 1) /\
            is_terminator (nth (Z.to_nat (e - off - 1)) (b :: rest) x00) = true)
      as Hrest.
    { intros H. destruct (IH _ _ H) as (Hb & Ht). split; [lia|].
      replace (Z.to_nat (e - off - 1))
        with (S (Z.to_nat (e - (off + 1) - 1))) by lia.
      exact Ht. }
    destruct (is_terminator b) eqn:Eb; [|auto].
    destruct Hin as [E|Hin]; [|auto].
    subst e. pose proof (Nat2Z.is_nonneg (List.length rest)).
    unfold len. split; [lia|].
    replace (off + 1 - off - 1) with 0 by lia. exact Eb.
Qed.

Lemma scan_sorted (content : list byte) :
  forall off, StronglySorted Z.lt (scan content off).
Proof.
  induction content as [|b rest IH]; intros off; cbn [scan].
  - constructor.
  - destruct (is_terminator b); [|apply IH].
    constructor; [apply IH|].
    apply Forall_forall. intros e He. apply scan_spec in He. lia.
Qed.

(** The line starts are strictly increasing. *)
Lemma build_sorted (content : list byte) : StronglySorted Z.lt (build content).
Proof.
  unfold build. constructor; [apply scan_sorted|].
  apply Forall_forall. intros e He. apply scan_spec in He. lia.
Qed.

Lemma sorted_nth (l : list Z) :
  StronglySorted Z.lt l ->
  forall i j, (i < j < List.length l)%nat -> nth i l 0 < nth j l 0.
Proof.
  induction 1 as [|a l Hs IH Hall]; intros i j Hij.
  - simpl in Hij. lia.
  - cbn [List.length] in Hij. destruct j as [|j]; [lia|].
    destruct i as [|i]; cbn [nth].
    + rewrite Forall_forall in Hall. apply Hall. apply nth_In. lia.
    + apply IH. lia.
Qed.

Section Search.

Variable table : list Z.
Variable offset : Z.
Hypothesis Hincr :
  forall i j, (i < j < List.length table)%nat -> nth i table 0 < nth j table 0.

(** The binary search returns the least index whose line start is above
    [offset], or the length of the table if there is none. *)
Lemma search_spec :
  forall fuel lo hi,
    (lo <= hi <= List.length table)%nat ->
    (hi - lo <= fuel)%nat ->
    (forall i, (i < lo)%nat -> nth i table 0 <= offset) ->
    (forall i, (hi <= i < List.length table)%nat -> offset < nth i table 0) ->
    let r := search fuel table offset lo hi in
    (lo <= r <= hi)%nat /\
    (forall i, (i < r)%nat -> nth i table 0 <= offset) /\
    (forall i, (r <= i < List.length table)%nat -> offset < nth i table 0).
Proof.
  induction fuel as [|fuel IH]; intros lo hi Hb Hf Hlo Hhi; cbn [search].
  - assert (lo = hi) by lia. subst hi. repeat split; (lia || assumption).
  - destruct (lo <? hi)%nat eqn:E.
    + apply Nat.ltb_lt in E.
      assert (lo <= Nat.div2 (lo + hi) < hi)%nat as Hmid.
      { rewrite Nat.div2_div.
        pose proof (Nat.div_mod_eq (lo + hi) 2).
        pose proof (Nat.mod_upper_bound (lo + hi) 2). lia. }
      set (mid := Nat.div2 (lo + hi)) in *.
      destruct (nth mid table 0 <=? offset) eqn:Em.
      * apply Z.leb_le in Em.
        destruct (IH (S mid) hi) as (H1 & H2 & H3); try lia; try assumption.
        { intros i Hi. destruct (Nat.eq_dec i mid) as [->|Hne];
            [assumption|].
          assert (nth i table 0 < nth mid table 0) by (apply Hincr; lia).
          lia. }
        repeat split; (lia || assumption).
      * apply Z.leb_gt in Em.
        destruct (IH lo mid) as (H1 & H2 & H3); try lia; try assumption.
        { intros i Hi. destruct (Nat.eq_dec i mid) as [->|Hne];
            [assumption|].
          assert (nth mid table 0 < nth i table 0) by (apply Hincr; lia).
          lia. }
        repeat split; (lia || assumption).
    + apply Nat.ltb_ge in E. assert (lo = hi) by lia. subst hi.
      repeat split; (lia || assumption).
Qed.

End Search.

(** [lineOfOffset] finds, for an offset of the content, the line whose
    start is the greatest one not above it. *)
Lemma lineOfOffset_spec (content : list byte) (o : Z) :
  0 <= o <= len content ->
  exists i,
    lineOfOffset (build content) (len content) o = Ok (Z.of_nat i) /\
    (i < List.length (build content))%nat /\
    nth i (build content) 0 <= o /\
    ((S i < List.length (build content))%nat ->
     o < nth (S i) (build content) 0).
Proof.
  intros Ho. unfold lineOfOffset.
  replace ((o <? 0) || (len content <? o)) with false
    by (symmetry; apply orb_false_iff; split; apply Z.ltb_ge; lia).
  set (table := build content).
  destruct (search_spec table o (sorted_nth _ (build_sorted content))
              (List.length table) 0 (List.length table))
    as (H1 & H2 & H3); try lia.
  set (r := search (List.length table) table o 0 (List.length table)) in *.
  assert (r <> 0)%nat as Hr.
  { intros E. rewrite E in H3. specialize (H3 0%nat).
    unfold table, build in H3. cbn [List.length nth] in H3. lia. }
  exists (r - 1)%nat. split; [f_equal; lia|]. split; [lia|]. split.
  - apply H2. lia.
  - intros Hi. apply H3. lia.
Qed.

(** ** Lines and characters *)

(** Every line starts on a character boundary of the content. *)
Lemma line_start_boundary (content : list byte) (i : nat) :
  (i < List.length (build content))%nat ->
  In (nth i (build content) 0) (rune_starts (runes content) 0).
Proof.
  intros Hi. unfold build in *. cbn [List.length] in Hi.
  destruct i as [|i]; cbn [nth].
  - apply rune_starts_head.
  - assert (In (nth i (scan content 0) 0) (scan content 0)) as Hin
        by (apply nth_In; lia).
    apply scan_spec in Hin. destruct Hin as (Hb & Ht).
    set (e := nth i (scan content 0) 0) in *.
    replace e with (Z.of_nat (Z.to_nat (e - 0 - 1)) + 1) by lia.
    apply terminator_boundary; [unfold len in Hb; lia | assumption].
Qed.

(** A line stops at the end of the content or at a line terminator, and
    not before it starts. *)
Lemma lineStop_spec (content : list byte) (i : nat) :
  (i < List.length (build content))%nat ->
  let m := NewMapper content in
  let start := nth i (build content) 0 in
  let stop := lineStop m (Z.of_nat i) in
  0 <= start <= stop /\
  (stop = len content \/
   stop < len content /\
   is_terminator (nth (Z.to_nat stop) content x00) = true) /\
  (stop = len content \/ stop = nth (S i) (build content) 0 - 1).
Proof.
  intros Hi m start stop. subst m start stop.
  unfold lineStop, NewMapper. cbn [Lines Content].
  assert (0 <= nth i (build content) 0 <= len content) as Hstart.
  { unfold build in *. destruct i as [|i]; cbn [nth].
    - unfold len. lia.
    - cbn [List.length] in Hi.
      assert (In (nth i (scan content 0) 0) (scan content 0)) as Hin
          by (apply nth_In; lia).
      apply scan_spec in Hin. lia. }
  destruct (Z.of_nat i + 1 <? len (build content)) eqn:E.
  - apply Z.ltb_lt in E. unfold len in E.
    replace (Z.to_nat (Z.of_nat i + 1)) with (S i) by lia.
    assert (nth i (build content) 0 < nth (S i) (build content) 0) as Hlt
        by (apply sorted_nth; [apply build_sorted | lia]).
    assert (In (nth (S i) (build content) 0) (scan content 0)) as Hin.
    { unfold build in *. cbn [nth List.length] in *. apply nth_In. lia. }
    apply scan_spec in Hin. destruct Hin as (Hb & Ht).
    split; [lia|]. split; [|right; reflexivity].
    right. split; [lia|].
    replace (nth (S i) (build content) 0 - 0 - 1)
      with (nth (S i) (build content) 0 - 1) in Ht by lia.
    exact Ht.
  - split; [lia|]. split; left; reflexivity.
Qed.

Lemma skipn_nth {A : Type} (d : A) (l : list A) :
  forall n, (n < List.length l)%nat -> skipn n l = nth n l d :: skipn (S n) l.
Proof.
  induction l as [|a l IH]; intros n Hn; cbn [List.length] in Hn; [lia|].
  destruct n as [|n]; [reflexivity|]. cbn [skipn nth]. apply IH. lia.
Qed.

(** From the start of a line, the content decodes as the line does, and
    then as what follows the line. *)
Lemma line_decoding (content : list byte) (i : nat) :
  (i < List.length (build content))%nat ->
  let m := NewMapper content in
  let start := nth i (build content) 0 in
  let line := lineBytes m (Z.of_nat i) in
  len line = lineStop m (Z.of_nat i) - start /\
  exists ws, runes (skipn (Z.to_nat start) content) = runes line ++ ws.
Proof.
  intros Hi m start line.
  destruct (lineStop_spec content i Hi) as (Hs & Hstop & _).
  fold m start in Hs, Hstop.
  set (stop := lineStop m (Z.of_nat i)) in *.
  assert (0 <= stop <= len content) as Hle by (unfold len in *; lia).
  assert (line = firstn (Z.to_nat (stop - start))
                        (skipn (Z.to_nat start) content)) as Hline.
  { subst line. unfold lineBytes. rewrite Nat2Z.id. reflexivity. }
  split.
  - rewrite Hline. unfold len in *.
    rewrite length_firstn, length_skipn. lia.
  - pose proof (firstn_skipn (Z.to_nat (stop - start))
                             (skipn (Z.to_nat start) content)) as Hcut.
    rewrite <- Hline, skipn_skipn in Hcut.
    replace (Z.to_nat (stop - start) + Z.to_nat start)%nat
      with (Z.to_nat stop) in Hcut by lia.
    rewrite <- Hcut.
    destruct Hstop as [E|(Hlt & Ht)].
    + exists []. rewrite E. unfold len.
      rewrite Nat2Z.id, skipn_all, !app_nil_r. reflexivity.
    + rewrite (skipn_nth x00) by (unfold len in Hlt; lia).
      eexists. apply runes_app. apply terminator_not_cont. assumption.
Qed.

(** A boundary of the whole that falls in the middle part is a boundary
    of the middle part. *)
Lemma middle_boundary (ws1 ws2 ws3 : list nat) (o : Z) :
  In o (rune_starts (ws1 ++ ws2 ++ ws3) 0) ->
  total_bytes ws1 <= o <= total_bytes ws1 + total_bytes ws2 ->
  In (o - total_bytes ws1) (rune_starts ws2 0).
Proof.
  intros Hin Ho. apply rune_starts_app in Hin. destruct Hin as [Hin|Hin].
  - apply rune_starts_upper in Hin.
    replace (o - total_bytes ws1) with 0 by lia. apply rune_starts_head.
  - apply rune_starts_app in Hin. destruct Hin as [Hin|Hin].
    + apply (rune_starts_shift _ _ (- total_bytes ws1)) in Hin.
      replace (0 + total_bytes ws1 + - total_bytes ws1) with 0 in Hin by lia.
      replace (o - total_bytes ws1) with (o + - total_bytes ws1) by lia.
      assumption.
    + apply rune_starts_lower in Hin.
      replace (o - total_bytes ws1) with (0 + total_bytes ws2) by lia.
      apply rune_starts_last.
Qed.

(** C7: for every content and every byte offset [o] with
    [0 <= o <= len content] on a character boundary, [offsetToPosition]
    succeeds and [positionToOffset] maps the position it returns back to
    [o]. *)
Theorem offset_round_trip (content : list byte) (o : Z) :
  0 <= o <= len content ->
  is_char_boundary content o = true ->
  exists p,
    offsetToPosition (NewMapper content) o = Ok p /\
    positionToOffset (NewMapper content) p = Ok o.
Proof.
  intros Ho Hb. unfold is_char_boundary in Hb. rewrite existsb_eqb_In in Hb.
  destruct (lineOfOffset_spec content o Ho) as (i & Hline & Hi & Hlo & Hhi).
  set (m := NewMapper content).
  set (start := nth i (build content) 0) in *.
  assert (offsetOfLine (Lines m) (Z.of_nat i) = Ok start) as Hstart.
  { unfold offsetOfLine, m, NewMapper, len. cbn [Lines].
    replace ((Z.of_nat i <? 0) ||
             (Z.of_nat (List.length (build content)) <=? Z.of_nat i))
      with false
      by (symmetry; apply orb_false_iff; split;
          [apply Z.ltb_ge | apply Z.leb_gt]; lia).
    rewrite Nat2Z.id. reflexivity. }
  destruct (lineStop_spec content i Hi) as (Hs & _ & Hstop).
  destruct (line_decoding content i Hi) as (Hlen & ws3 & Hdec).
  fold m start in Hs, Hstop, Hlen, Hdec.
  destruct (boundary_split content start (line_start_boundary content i Hi))
    as (ws1 & Hsplit & Htot).
  rewrite Hdec in Hsplit.
  assert (In (o - start) (rune_starts (runes (lineBytes m (Z.of_nat i))) 0))
    as Hcol.
  { rewrite <- Htot. apply (middle_boundary ws1 _ ws3).
    - rewrite <- Hsplit. assumption.
    - rewrite runes_total, Htot, Hlen.
      destruct Hstop as [E|E]; rewrite E; [lia|].
      assert (S i < List.length (build content))%nat as Hnext.
      { destruct (Nat.lt_ge_cases (S i) (List.length (build content)))
          as [H|H]; [assumption|].
        unfold lineStop in E. cbn [Lines Content m NewMapper] in E.
        replace (Z.of_nat i + 1 <? len (build content)) with false in E
          by (symmetry; apply Z.ltb_ge; unfold len; lia).
        rewrite nth_overflow in E by assumption. unfold len in *. lia. }
      specialize (Hhi Hnext). lia. }
  destruct (walks_round_trip _ (runes_positive _) 0 0 _ Hcol)
    as (u & Hfwd & Hle & Hback).
  exists (mkPosition (Z.of_nat i) u). split.
  - unfold offsetToPosition. fold m.
    change (Lines m) with (build content) at 1.
    change (Content m) with content.
    rewrite Hline. cbn [bind]. rewrite Hstart. cbn [bind].
    unfold utf16ColumnForByteColumn. rewrite Hfwd. reflexivity.
  - unfold positionToOffset. fold m. cbn [Line Character].
    rewrite Hstart. cbn [bind]. unfold byteColumnForUtf16.
    replace (u <? 0) with false by (symmetry; apply Z.ltb_ge; lia).
    rewrite Hback. cbn [bind]. f_equal. lia.
Qed.

Lemma offset_round_trip_witness :
  0 <= 5 <= len text_surrogate /\
  is_char_boundary text_surrogate 5 = true /\
  exists p,
    offsetToPosition (NewMapper text_surrogate) 5 = Ok p /\
    positionToOffset (NewMapper text_surrogate) p = Ok 5.
Proof.
  assert (0 <= 5 <= len text_surrogate) as H
      by (vm_compute; split; discriminate).
  split; [exact H|]. split; [reflexivity|].
  apply (offset_round_trip text_surrogate 5 H). reflexivity.
Defined.
(** * Further properties of package safetoken *)

(** A position that [Offset] accepts is a position of the file or the one
    byte beyond its end. *)
Lemma Offset_success_inv (f : token.File) (pos : token.Pos) (o : Z) :
  token.wf f ->
  safetoken.Offset f pos = (o, nil) ->
  (token.Base f <= pos <= token.Base f + token.Size f /\
   o = pos - token.Base f) \/
  (pos = token.Base f + token.Size f + 1 /\ o = token.Size f).
Proof.
  intros Hwf H.
  destruct (Z_lt_dec pos (token.Base f)) as [Hlo|Hlo].
  { rewrite Offset_outside in H by (assumption || lia). discriminate. }
  destruct (Z_le_dec pos (token.Base f + token.Size f)) as [Hhi|Hhi].
  { rewrite Offset_inside in H by (assumption || lia).
    left. split; [lia | congruence]. }
  destruct (Z.eq_dec pos (token.Base f + token.Size f + 1)) as [E|E].
  { subst pos. rewrite Offset_past_end in H by assumption.
    right. split; [reflexivity | congruence]. }
  rewrite Offset_outside in H by (assumption || lia). discriminate.
Qed.

(** X1: [Offset] preserves the order of the positions it accepts, and
    never stretches a distance: two accepted positions [p1 <= p2] give
    offsets [0 <= o1 <= o2 <= size], so that [content[o1:o2]] is a valid
    slice of a content of [size] bytes, of at most [p2 - p1] bytes. *)
Theorem Offset_order_preserving (f : token.File) (p1 p2 : token.Pos)
  (o1 o2 : Z) :
  token.wf f ->
  p1 <= p2 ->
  safetoken.Offset f p1 = (o1, nil) ->
  safetoken.Offset f p2 = (o2, nil) ->
  0 <= o1 <= o2 /\ o2 <= token.Size f /\ o2 - o1 <= p2 - p1.
Proof.
  intros Hwf Hle H1 H2. pose proof Hwf as (Hb & Hs & He).
  apply Offset_success_inv in H1; [|assumption].
  apply Offset_success_inv in H2; [|assumption].
  lia.
Qed.

Lemma Offset_order_preserving_witness :
  0 <= 4 <= 10 /\ 10 <= token.Size sample_file /\ 10 - 4 <= 12 - 5.
Proof.
  apply (Offset_order_preserving sample_file 5 12 4 10 sample_file_wf).
  - lia.
  - reflexivity.
  - reflexivity.
Defined.

(** X2: the only two positions that [Offset] maps to the same offset are
    the end of the file and the byte beyond it: [Offset] is injective on
    the positions of the file, and the tolerated position collides with
    [base+size] alone. *)
Theorem Offset_collision (f : token.File) (p1 p2 : token.Pos) (o : Z) :
  token.wf f ->
  p1 < p2 ->
  safetoken.Offset f p1 = (o, nil) ->
  safetoken.Offset f p2 = (o, nil) ->
  p1 = token.Base f + token.Size f /\
  p2 = token.Base f + token.Size f + 1 /\
  o = token.Size f.
Proof.
  intros Hwf Hlt H1 H2. pose proof Hwf as (Hb & Hs & He).
  apply Offset_success_inv in H1; [|assumption].
  apply Offset_success_inv in H2; [|assumption].
  lia.
Qed.

Lemma Offset_collision_witness :
  11 = token.Base sample_file + token.Size sample_file /\
  12 = token.Base sample_file + token.Size sample_file + 1 /\
  10 = token.Size sample_file.
Proof.
  apply (Offset_collision sample_file 11 12 10 sample_file_wf).
  - lia.
  - reflexivity.
  - reflexivity.
Defined.

(** X3: when a file [g] is registered right after [f] in the position
    space ([base g = base f + size f + 1], as consecutive files of a file set
    are), the first position of [g] is accepted by both: by [g] as its offset
    0 and by [f] as its end.  Every later position of [g] is rejected by
    [f], and every position of [f] is rejected by [g]. *)
Theorem Offset_adjacent_files (f g : token.File) :
  token.wf f -> token.wf g ->
  token.Base g = token.Base f + token.Size f + 1 ->
  safetoken.Offset f (token.Base g) = (token.Size f, nil) /\
  safetoken.Offset g (token.Base g) = (0, nil) /\
  (forall pos, token.Base g < pos ->
     safetoken.Offset f pos = (-1, safetoken.Offset_error f pos)) /\
  (forall pos, pos <= token.Base f + token.Size f ->
     safetoken.Offset g pos = (-1, safetoken.Offset_error g pos)).
Proof.
  intros Hf Hg Hadj. pose proof Hf as (Hb & Hs & He).
  pose proof Hg as (Hb' & Hs' & He').
  split; [|split; [|split]].
  - rewrite Hadj. apply Offset_past_end. assumption.
  - rewrite Offset_inside by (assumption || lia). f_equal. lia.
  - intros pos Hpos. apply Offset_outside; [assumption | lia].
  - intros pos Hpos. apply Offset_outside; [assumption | lia].
Qed.

Lemma Offset_adjacent_files_witness :
  safetoken.Offset sample_file 12 = (10, nil) /\
  safetoken.Offset (token.mkFile "b.go" 12 5) 12 = (0, nil).
Proof.
  assert (token.wf (token.mkFile "b.go" 12 5)) as Hg.
  { unfold token.wf. simpl. repeat split; try lia. discriminate. }
  destruct (Offset_adjacent_files sample_file (token.mkFile "b.go" 12 5)
              sample_file_wf Hg eq_refl) as (H1 & H2 & _).
  split; [exact H1 | exact H2].
Defined.



(** * Properties of the folding-range helpers *)

Import lsp_test.

(** ** Lists whose ordered pairs are all related *)

Section OrderedPairs.

Context {A : Type}.
Variable R : A -> A -> Prop.

Lemma StronglySorted_app_iff (l1 l2 : list A) :
  StronglySorted R (l1 ++ l2) <->
  StronglySorted R l1 /\ StronglySorted R l2 /\
  (forall x y, In x l1 -> In y l2 -> R x y).
Proof.
  induction l1 as [|a l1 IH]; cbn [app].
  - split.
    + intros H. repeat split; [constructor | assumption | intros x y []].
    + intros (_ & H & _). assumption.
  - split.
    + intros H. apply StronglySorted_inv in H. destruct H as (Hs & Ha).
      apply IH in Hs. destruct Hs as (H1 & H2 & H12).
      rewrite Forall_app in Ha. destruct Ha as (Ha1 & Ha2).
      repeat split; [constructor; assumption | assumption |].
      intros x y [E|Hx] Hy.
      * subst x. rewrite Forall_forall in Ha2. auto.
      * auto.
    + intros (H1 & H2 & H12).
      apply StronglySorted_inv in H1. destruct H1 as (Hs & Ha).
      constructor.
      * apply IH. repeat split; [assumption | assumption |].
        intros x y Hx Hy. apply H12; [right|]; assumption.
      * apply Forall_app. split; [assumption|].
        apply Forall_forall. intros y Hy. apply H12; [left; reflexivity|].
        assumption.
Qed.

Lemma StronglySorted_snoc (l : list A) (x : A) :
  StronglySorted R l -> Forall (fun y => R y x) l ->
  StronglySorted R (l ++ [x]).
Proof.
  intros Hl Hx. apply StronglySorted_app_iff. repeat split.
  - assumption.
  - repeat constructor.
  - intros y z Hy [E|[]]. subst z. rewrite Forall_forall in Hx. auto.
Qed.

(** Whatever stands before is related to whatever stands after. *)
Lemma StronglySorted_pair (l1 l2 l3 : list A) (x y : A) :
  StronglySorted R (l1 ++ x :: l2 ++ y :: l3) -> R x y.
Proof.
  intros H. apply StronglySorted_app_iff in H. destruct H as (_ & H & _).
  apply StronglySorted_inv in H. destruct H as (_ & H).
  rewrite Forall_forall in H. apply H. apply in_or_app. right. left.
  reflexivity.
Qed.

End OrderedPairs.

(** ** [conflict] *)

Lemma conflict_spec (a b : FoldingRange) :
  conflict a b = true <->
  pos_le (start_pos a) (start_pos b) /\ pos_lt (start_pos b) (end_pos a).
Proof.
  unfold conflict, pos_le, pos_lt, start_pos, end_pos. cbn [fst snd].
  rewrite andb_true_iff, !orb_true_iff, !andb_true_iff.
  rewrite !Z.ltb_lt, !Z.eqb_eq, !Z.leb_le, !Z.gtb_lt.
  intuition lia.
Qed.

(** X5: for two ranges that are not empty, one conflicts with the other,
    in one order or the other, exactly when they overlap. *)
Theorem conflict_overlap (a b : FoldingRange) :
  pos_lt (start_pos a) (end_pos a) ->
  pos_lt (start_pos b) (end_pos b) ->
  (conflict a b = true \/ conflict b a = true) <-> overlap a b.
Proof.
  intros Ha Hb. rewrite !conflict_spec. unfold overlap.
  unfold pos_le, pos_lt, start_pos, end_pos in *. cbn [fst snd] in *.
  intuition lia.
Qed.

Lemma conflict_overlap_witness :
  (conflict (mkFoldingRange 0 2 0 5 "") (mkFoldingRange 0 1 0 3 "") = true \/
   conflict (mkFoldingRange 0 1 0 3 "") (mkFoldingRange 0 2 0 5 "") = true) <->
  overlap (mkFoldingRange 0 2 0 5 "") (mkFoldingRange 0 1 0 3 "").
Proof.
  apply (conflict_overlap (mkFoldingRange 0 2 0 5 "")
                          (mkFoldingRange 0 1 0 3 "")).
  - unfold pos_lt. simpl. lia.
  - unfold pos_lt. simpl. lia.
Defined.

(** ** [nonOverlappingRanges] *)

Lemma canInsert_true (set : list FoldingRange) (x : FoldingRange) :
  canInsert set x = true <-> Forall (fun y => conflict y x = false) set.
Proof.
  induction set as [|y set IH]; cbn [canInsert].
  - split; [constructor | reflexivity].
  - destruct (conflict y x) eqn:E.
    + split; [discriminate|]. intros H. apply Forall_inv in H. congruence.
    + rewrite IH. split.
      * intros H. constructor; assumption.
      * intros H. apply Forall_inv_tail in H. assumption.
Qed.

Lemma canInsert_false (set : list FoldingRange) (x : FoldingRange) :
  canInsert set x = false <->
  exists y, In y set /\ conflict y x = true.
Proof.
  induction set as [|y set IH]; cbn [canInsert].
  - split; [discriminate | intros (y & [] & _)].
  - destruct (conflict y x) eqn:E.
    + split; [|reflexivity]. intros _. exists y. split; [left|]; auto.
    + rewrite IH. split.
      * intros (z & Hz & Hc). exists z. split; [right|]; assumption.
      * intros (z & [Ez|Hz] & Hc); [congruence|]. exists z. auto.
Qed.

(** The index [findSet] returns is that of the first set that takes the
    range, or the number of sets. *)
Lemma findSet_spec (sets : list (list FoldingRange)) (x : FoldingRange) :
  forall i,
    (findSet sets x i = (i + List.length sets)%nat /\
     Forall (fun s => canInsert s x = false) sets) \/
    (exists pre set post,
       sets = pre ++ set :: post /\
       findSet sets x i = (i + List.length pre)%nat /\
       Forall (fun s => canInsert s x = false) pre /\
       canInsert set x = true).
Proof.
  induction sets as [|s sets IH]; intros i; cbn [findSet].
  - left. split; [cbn [List.length]; lia | constructor].
  - destruct (canInsert s x) eqn:E.
    + right. exists [], s, sets. cbn [app List.length].
      repeat split; [lia | constructor | assumption].
    + destruct (IH (S i))
        as [(Hk & Hall)|(pre & set & post & -> & Hk & Hall & Hc)].
      * left. split; [cbn [List.length]; lia | constructor; assumption].
      * right. exists (s :: pre), set, post. cbn [app List.length].
        repeat split; [lia | constructor; assumption | assumption].
Qed.

Lemma appendAt_spec (pre : list (list FoldingRange)) :
  forall set post x,
    appendAt (pre ++ set :: post) (List.length pre) x =
    Returns (pre ++ (set ++ [x]) :: post).
Proof.
  induction pre as [|s pre IH]; intros set post x;
    cbn [app List.length appendAt].
  - reflexivity.
  - rewrite IH. reflexivity.
Qed.

(** The two ways in which a range is placed: in a new last set, when every
    set refuses it, or at the end of the first set that takes it. *)
Lemma place_spec (res : list (list FoldingRange)) (x : FoldingRange) :
  (Forall (fun s => canInsert s x = false) res /\
   place res x = Returns (res ++ [[x]])) \/
  (exists pre set post,
     res = pre ++ set :: post /\
     Forall (fun s => canInsert s x = false) pre /\
     canInsert set x = true /\
     place res x = Returns (pre ++ (set ++ [x]) :: post)).
Proof.
  unfold place.
  destruct (findSet_spec res x 0)
    as [(Hk & Hall)|(pre & set & post & -> & Hk & Hall & Hc)];
    rewrite Hk; cbn [Nat.add].
  - left. split; [assumption|]. rewrite Nat.eqb_refl.
    apply (appendAt_spec res [] [] x).
  - right. exists pre, set, post. repeat split; try assumption.
    replace (List.length pre =? List.length (pre ++ set :: post))%nat
      with false
      by (symmetry; apply Nat.eqb_neq; rewrite length_app;
          cbn [List.length]; lia).
    apply appendAt_spec.
Qed.

Lemma nonOverlappingRanges_snoc (l : list FoldingRange) (x : FoldingRange) :
  nonOverlappingRanges (l ++ [x]) =
  match nonOverlappingRanges l with
  | Returns res => place res x
  | Panics => Panics
  end.
Proof. unfold nonOverlappingRanges. rewrite fold_left_app. reflexivity. Qed.

(** [nonOverlappingRanges] returns, and what holds of the nil slice and is
    kept by both ways of placing a range holds of its result. *)
Lemma nonOverlappingRanges_invariant (ranges : list FoldingRange)
  (Inv : list FoldingRange -> list (list FoldingRange) -> Prop) :
  Inv [] [] ->
  (forall prefix x suffix res,
     ranges = prefix ++ x :: suffix ->
     Inv prefix res ->
     Forall (fun s => canInsert s x = false) res ->
     Inv (prefix ++ [x]) (res ++ [[x]])) ->
  (forall prefix x suffix pre set post,
     ranges = prefix ++ x :: suffix ->
     Inv prefix (pre ++ set :: post) ->
     Forall (fun s => canInsert s x = false) pre ->
     canInsert set x = true ->
     Inv (prefix ++ [x]) (pre ++ (set ++ [x]) :: post)) ->
  exists res, nonOverlappingRanges ranges = Returns res /\ Inv ranges res.
Proof.
  intros Hnil Hnew Hadd.
  assert (forall prefix suffix,
             ranges = prefix ++ suffix ->
             exists res,
               nonOverlappingRanges prefix = Returns res /\ Inv prefix res)
    as H.
  { induction prefix as [|x prefix IH] using rev_ind; intros suffix E.
    - exists []. split; [reflexivity | assumption].
    - rewrite <- app_assoc in E. cbn [app] in E.
      destruct (IH _ E) as (res & Hres & Hinv).
      rewrite nonOverlappingRanges_snoc, Hres.
      destruct (place_spec res x)
        as [(Hall & Hp)|(pre & set & post & -> & Hall & Hc & Hp)];
        rewrite Hp; eexists; (split; [reflexivity|]); eauto. }
  apply (H ranges []). rewrite app_nil_r. reflexivity.
Qed.

(** X6: for every input, [nonOverlappingRanges] returns (the index it
    appends at is always in range), no set of the result is empty, and the
    sets together hold exactly the ranges of the input, each as often as the
    input does. *)
Theorem nonOverlappingRanges_partition (ranges : list FoldingRange) :
  exists res,
    nonOverlappingRanges ranges = Returns res /\
    Permutation (List.concat res) ranges /\
    Forall (fun set => set <> []) res.
Proof.
  apply (nonOverlappingRanges_invariant ranges
           (fun prefix res =>
              Permutation (List.concat res) prefix /\
              Forall (fun set => set <> []) res)).
  - split; constructor.
  - intros prefix x suffix res _ (Hp & Hn) _. split.
    + rewrite concat_app. cbn [List.concat]. rewrite app_nil_r.
      apply Permutation_app_tail. assumption.
    + apply Forall_app. split; [assumption|]. repeat constructor. discriminate.
  - intros prefix x suffix pre set post _ (Hp & Hn) _ _. split.
    + rewrite concat_app in *. cbn [List.concat] in *.
      rewrite <- app_assoc.
      transitivity (List.concat pre ++ set ++ List.concat post ++ [x]).
      * apply Permutation_app_head. apply Permutation_app_head.
        apply Permutation_app_comm.
      * rewrite !app_assoc. apply Permutation_app_tail.
        rewrite <- app_assoc. assumption.
    + apply Forall_app in Hn. destruct Hn as (Hpre & Hrest).
      apply Forall_app. split; [assumption|].
      constructor; [destruct set; discriminate|].
      apply Forall_inv_tail in Hrest. assumption.
Qed.

(** X7: in every set of the result, no range conflicts with a range that
    stands after it in the set. *)
Theorem nonOverlappingRanges_no_conflict (ranges : list FoldingRange) :
  exists res,
    nonOverlappingRanges ranges = Returns res /\
    forall set l1 x l2 y l3,
      In set res -> set = l1 ++ x :: l2 ++ y :: l3 -> conflict x y = false.
Proof.
  destruct (nonOverlappingRanges_invariant ranges
              (fun _ res =>
                 Forall (StronglySorted (fun x y => conflict x y = false)) res))
    as (res & Hres & Hinv).
  - constructor.
  - intros prefix x suffix res _ Hs _.
    apply Forall_app. split; [assumption|]. repeat constructor.
  - intros prefix x suffix pre set post _ Hs _ Hc.
    apply Forall_app in Hs. destruct Hs as (Hpre & Hrest).
    apply Forall_app. split; [assumption|].
    constructor; [|apply Forall_inv_tail in Hrest; assumption].
    apply Forall_inv in Hrest. apply StronglySorted_snoc; [assumption|].
    apply canInsert_true. assumption.
  - exists res. split; [assumption|].
    intros set l1 x l2 y l3 Hin ->.
    rewrite Forall_forall in Hinv.
    apply (StronglySorted_pair _ l1 l2 l3 x y (Hinv _ Hin)).
Qed.

(** X8: the placement is first fit: a range of a set conflicts with some
    range of every set that stands before it in the result. *)
Theorem nonOverlappingRanges_first_fit (ranges : list FoldingRange) :
  exists res,
    nonOverlappingRanges ranges = Returns res /\
    forall pre set post s y,
      res = pre ++ set :: post -> In s pre -> In y set ->
      exists x, In x s /\ conflict x y = true.
Proof.
  destruct (nonOverlappingRanges_invariant ranges
              (fun _ res => StronglySorted refused_by res))
    as (res & Hres & Hinv).
  - constructor.
  - intros prefix x suffix res _ Hs Hall.
    apply StronglySorted_snoc; [assumption|].
    rewrite Forall_forall in *. intros s Hs' y [E|[]]. subst y.
    apply canInsert_false. auto.
  - intros prefix x suffix pre set post _ Hs Hall _.
    apply StronglySorted_app_iff in Hs. destruct Hs as (Hpre & Hrest & Hcross).
    apply StronglySorted_inv in Hrest. destruct Hrest as (Hpost & Hset).
    apply StronglySorted_app_iff. repeat split; [assumption | |].
    + constructor; [assumption|].
      rewrite Forall_forall in *. intros s Hs y Hy.
      destruct (Hset s Hs y Hy) as (z & Hz & Hc).
      exists z. split; [apply in_or_app; left|]; assumption.
    + intros s t Hs [E|Ht].
      * subst t. intros y Hy. apply in_app_or in Hy.
        destruct Hy as [Hy|[E|[]]].
        -- apply (Hcross s set Hs (or_introl eq_refl)). assumption.
        -- subst y. apply canInsert_false.
           rewrite Forall_forall in Hall. auto.
      * apply Hcross; [assumption | right; assumption].
  - exists res. split; [assumption|].
    intros pre set post s y -> Hs Hy.
    apply StronglySorted_app_iff in Hinv. destruct Hinv as (_ & _ & Hcross).
    apply (Hcross s set Hs (or_introl eq_refl)). assumption.
Qed.

(** A range that does not conflict with one that starts no earlier ends
    where that one starts, or before. *)
Lemma no_conflict_disjoint (a b : FoldingRange) :
  pos_le (start_pos a) (start_pos b) ->
  conflict a b = false ->
  pos_le (end_pos a) (start_pos b).
Proof.
  intros Hle Hc.
  assert (~ (pos_le (start_pos a) (start_pos b) /\
             pos_lt (start_pos b) (end_pos a))) as H
      by (rewrite <- conflict_spec; congruence).
  unfold pos_le, pos_lt, start_pos, end_pos in *. cbn [fst snd] in *. lia.
Qed.

(** On ranges sorted by their starts, the sets hold ranges of the input,
    and in a set every range ends before the ranges after it start. *)
Lemma nonOverlappingRanges_sorted (ranges : list FoldingRange) :
  StronglySorted (fun a b => pos_le (start_pos a) (start_pos b)) ranges ->
  exists res,
    nonOverlappingRanges ranges = Returns res /\
    (forall set y, In set res -> In y set -> In y ranges) /\
    Forall (StronglySorted (fun a b => pos_le (end_pos a) (start_pos b))) res.
Proof.
  intros Hsorted.
  apply (nonOverlappingRanges_invariant ranges
           (fun prefix res =>
              (forall set y, In set res -> In y set -> In y prefix) /\
              Forall (StronglySorted
                        (fun a b => pos_le (end_pos a) (start_pos b))) res)).
  - split; [intros set y [] | constructor].
  - intros prefix x suffix res _ (Hin & Hs) _. split.
    + intros set y Hset Hy. apply in_or_app. apply in_app_or in Hset.
      destruct Hset as [Hset|[E|[]]].
      * left. eapply Hin; eassumption.
      * subst set. right. assumption.
    + apply Forall_app. split; [assumption|]. repeat constructor.
  - intros prefix x suffix pre set post E (Hin & Hs) _ Hc.
    assert (forall y, In y prefix -> pos_le (start_pos y) (start_pos x))
      as Hbefore.
    { intros y Hy. rewrite E in Hsorted.
      apply StronglySorted_app_iff in Hsorted.
      destruct Hsorted as (_ & _ & Hcross).
      apply Hcross; [assumption | left; reflexivity]. }
    split.
    + intros s y Hs' Hy. apply in_or_app. apply in_app_or in Hs'.
      destruct Hs' as [Hs'|[E'|Hs']].
      * left. apply (Hin s); [apply in_or_app; left|]; assumption.
      * subst s. apply in_app_or in Hy. destruct Hy as [Hy|Hy].
        -- left. apply (Hin set); [|assumption].
           apply in_or_app. right. left. reflexivity.
        -- right. assumption.
      * left. apply (Hin s); [|assumption].
        apply in_or_app. right. right. assumption.
    + apply Forall_app in Hs. destruct Hs as (Hpre & Hrest).
      apply Forall_app. split; [assumption|].
      constructor; [|apply Forall_inv_tail in Hrest; assumption].
      apply Forall_inv in Hrest. apply StronglySorted_snoc; [assumption|].
      apply canInsert_true in Hc. rewrite Forall_forall in *.
      intros y Hy. apply no_conflict_disjoint; [|auto].
      apply Hbefore. apply (Hin set); [|assumption].
      apply in_or_app. right. left. reflexivity.
Qed.

(** X9: when the input is sorted by start position, the ranges of every
    set of the result are pairwise disjoint and in order: a range ends
    where the ranges after it in the set start, or before. *)
Theorem nonOverlappingRanges_disjoint (ranges : list FoldingRange) :
  StronglySorted (fun a b => pos_le (start_pos a) (start_pos b)) ranges ->
  exists res,
    nonOverlappingRanges ranges = Returns res /\
    forall set l1 x l2 y l3,
      In set res -> set = l1 ++ x :: l2 ++ y :: l3 ->
      pos_le (end_pos x) (start_pos y).
Proof.
  intros Hsorted.
  destruct (nonOverlappingRanges_sorted ranges Hsorted)
    as (res & Hres & _ & Hs).
  exists res. split; [assumption|].
  intros set l1 x l2 y l3 Hin ->. rewrite Forall_forall in Hs.
  apply (StronglySorted_pair _ l1 l2 l3 x y (Hs _ Hin)).
Qed.

Lemma sample_ranges_sorted :
  StronglySorted (fun a b => pos_le (start_pos a) (start_pos b))
                 sample_ranges.
Proof.
  unfold sample_ranges.
  repeat (constructor; [|repeat constructor; unfold pos_le; simpl; lia]).
  constructor.
Defined.

Lemma nonOverlappingRanges_disjoint_witness :
  exists res,
    nonOverlappingRanges sample_ranges = Returns res /\
    forall set l1 x l2 y l3,
      In set res -> set = l1 ++ x :: l2 ++ y :: l3 ->
      pos_le (end_pos x) (start_pos y).
Proof.
  exact (nonOverlappingRanges_disjoint sample_ranges sample_ranges_sorted).
Defined.

(** X10: when no range of the input conflicts with a later one, the
    result is the input itself, as one set. *)
Theorem nonOverlappingRanges_single_set (ranges : list FoldingRange) :
  StronglySorted (fun x y => conflict x y = false) ranges ->
  ranges <> [] ->
  nonOverlappingRanges ranges = Returns [ranges].
Proof.
  intros Hfree Hne.
  destruct (nonOverlappingRanges_invariant ranges
              (fun prefix res =>
                 res = match prefix with [] => [] | _ => [prefix] end))
    as (res & Hres & Hinv).
  - reflexivity.
  - intros prefix x suffix res E Hinv Hall.
    destruct prefix as [|p prefix]; subst res; [reflexivity|].
    exfalso. apply Forall_inv in Hall. apply canInsert_false in Hall.
    destruct Hall as (y & Hy & Hc).
    rewrite E in Hfree. apply StronglySorted_app_iff in Hfree.
    destruct Hfree as (_ & _ & Hcross).
    rewrite (Hcross y x Hy (or_introl eq_refl)) in Hc. discriminate.
  - intros prefix x suffix pre set post E Hinv _ _.
    destruct prefix as [|p prefix].
    + destruct pre; discriminate.
    + destruct pre as [|s pre].
      * cbn [app] in *. injection Hinv as -> ->. reflexivity.
      * cbn [app] in Hinv. injection Hinv as _ Hinv.
        destruct pre; discriminate.
  - rewrite Hres, Hinv. destruct ranges; [congruence | reflexivity].
Qed.

Lemma nonOverlappingRanges_single_set_witness :
  nonOverlappingRanges
    [mkFoldingRange 0 1 0 3 ""; mkFoldingRange 0 3 0 4 "";
     mkFoldingRange 2 0 5 1 ""] =
  Returns [[mkFoldingRange 0 1 0 3 ""; mkFoldingRange 0 3 0 4 "";
            mkFoldingRange 2 0 5 1 ""]].
Proof.
  apply nonOverlappingRanges_single_set.
  - repeat (constructor; [|repeat constructor]). constructor.
  - discriminate.
Defined.

(** ** [foldRanges] *)

Lemma chained_weaken (ivs : list (Z * Z)) (lo lo' hi : Z) :
  lo' <= lo -> chained lo hi ivs -> chained lo' hi ivs.
Proof.
  destruct ivs as [|[s e] rest]; cbn [chained]; intros;
    lia || (split; [lia | tauto]).
Qed.

Lemma chained_bounds (ivs : list (Z * Z)) :
  forall lo hi, chained lo hi ivs -> lo <= hi /\ covered ivs <= hi - lo.
Proof.
  induction ivs as [|[s e] rest IH]; cbn [chained covered]; intros lo hi H.
  - lia.
  - destruct H as (Hse & Hrest). apply IH in Hrest. lia.
Qed.

(** What stands after a chain starts where the chain ends, or later. *)
Lemma chained_app (l1 l2 : list (Z * Z)) :
  forall lo hi,
    chained lo hi (l1 ++ l2) -> exists mid, lo <= mid /\ chained mid hi l2.
Proof.
  induction l1 as [|[s e] l1 IH]; cbn [app chained]; intros lo hi H.
  - exists lo. split; [lia | assumption].
  - destruct H as (Hse & Hrest). destruct (IH _ _ Hrest) as (mid & Hm & Hc).
    exists mid. split; [lia | assumption].
Qed.

Section Replaced.

Variable contents : list byte.

(** Before the first interval the text is the content. *)
Lemma replaced_firstn (ivs : list (Z * Z)) (a b : Z) :
  0 <= a <= b -> chained b (len contents) ivs ->
  firstn (Z.to_nat (b - a)) (replaced contents a ivs) =
  firstn (Z.to_nat (b - a)) (skipn (Z.to_nat a) contents).
Proof.
  intros Hab Hc. destruct ivs as [|[s e] rest]; cbn [replaced chained] in *.
  - reflexivity.
  - destruct Hc as (Hse & Hrest). apply chained_bounds in Hrest as Hb.
    rewrite firstn_app, firstn_firstn.
    rewrite length_firstn, length_skipn. unfold len in *.
    replace (Z.to_nat (b - a) -
             Nat.min (Z.to_nat (s - a)) (List.length contents - Z.to_nat a))%nat
      with 0%nat by lia.
    cbn [firstn]. rewrite app_nil_r. f_equal. lia.
Qed.

(** Dropping the text before the first interval leaves the rest. *)
Lemma replaced_skipn (ivs : list (Z * Z)) (a b : Z) :
  0 <= a <= b -> chained b (len contents) ivs ->
  skipn (Z.to_nat (b - a)) (replaced contents a ivs) =
  replaced contents b ivs.
Proof.
  intros Hab Hc. destruct ivs as [|[s e] rest]; cbn [replaced chained] in *.
  - rewrite skipn_skipn. f_equal. lia.
  - destruct Hc as (Hse & Hrest). apply chained_bounds in Hrest as Hb.
    unfold len in *.
    rewrite skipn_app, length_firstn, length_skipn.
    replace (Z.to_nat (b - a) -
             Nat.min (Z.to_nat (s - a)) (List.length contents - Z.to_nat a))%nat
      with 0%nat by lia.
    cbn [skipn]. f_equal.
    rewrite skipn_firstn_comm, skipn_skipn. f_equal; [lia|]. f_equal. lia.
Qed.

(** Every interval is traded for the two bytes of [foldedText]. *)
Lemma replaced_length (ivs : list (Z * Z)) :
  forall lo,
    0 <= lo -> chained lo (len contents) ivs ->
    len (replaced contents lo ivs) =
    len contents - lo - covered ivs + 2 * len ivs.
Proof.
  induction ivs as [|[s e] rest IH]; intros lo Hlo Hc;
    cbn [replaced chained covered] in *.
  - unfold len in *. rewrite length_skipn. cbn [List.length]. lia.
  - destruct Hc as (Hse & Hrest). apply chained_bounds in Hrest as Hb.
    specialize (IH e ltac:(lia) Hrest). unfold len in *.
    rewrite !length_app, length_firstn, length_skipn.
    change (List.length foldedText) with 2%nat. cbn [List.length] in *.
    lia.
Qed.

End Replaced.

Section FoldRangesFacts.

Variable PositionPoint : Position -> Z * error.
Variable contents : list byte.

(** Once the ranges [back] are folded, the loop folds the ranges [front]
    before them. *)
Lemma foldLoop_chained (front : list FoldingRange) :
  forall ifront back iback,
    Forall2 (resolves PositionPoint) front ifront ->
    chained 0 (len contents) (ifront ++ iback) ->
    foldLoop PositionPoint (front ++ back) (List.length front)
             (replaced contents 0 iback) =
    Returns (replaced contents 0 (ifront ++ iback), nil).
Proof.
  induction front as [|r front IH] using rev_ind;
    intros ifront back iback Hres Hc.
  - inversion Hres. subst. reflexivity.
  - apply Forall2_app_inv_l in Hres.
    destruct Hres as (ifront' & ilast & Hfront & Hlast & ->).
    inversion Hlast as [|r' iv l1 l2 Hr Hnil]. subst.
    inversion Hnil. subst. destruct iv as [s e]. destruct Hr as (Hs & He).
    cbn [fst snd] in Hs, He.
    rewrite <- app_assoc in Hc. cbn [app] in Hc.
    destruct (chained_app _ _ _ _ Hc) as (mid & Hmid & Hc').
    cbn [chained] in Hc'. destruct Hc' as (Hse & Hback).
    pose proof (chained_bounds _ _ _ Hback) as Hb.
    pose proof (replaced_length contents iback e ltac:(lia) Hback) as Hlen.
    assert (len (replaced contents 0 iback) =
            len contents - covered iback + 2 * len iback) as Hlen0.
    { rewrite replaced_length
        by (lia || (apply (chained_weaken _ e); [lia | assumption])).
      lia. }
    assert (0 <= len iback) as Hn by (unfold len; lia).
    rewrite length_app, Nat.add_1_r. cbn [foldLoop].
    rewrite <- !app_assoc. cbn [app].
    rewrite nth_error_app2 by lia. rewrite Nat.sub_diag. cbn [nth_error].
    rewrite Hs, He. unfold slice_to, slice_from.
    replace ((0 <=? s) && (s <=? len (replaced contents 0 iback))) with true
      by (symmetry; apply andb_true_iff; rewrite !Z.leb_le; lia).
    replace ((0 <=? e) && (e <=? len (replaced contents 0 iback))) with true
      by (symmetry; apply andb_true_iff; rewrite !Z.leb_le; lia).
    pose proof (replaced_firstn contents iback 0 s ltac:(lia)
                  (chained_weaken iback e s _ ltac:(lia) Hback)) as Hf.
    pose proof (replaced_skipn contents iback 0 e ltac:(lia) Hback) as Hk.
    rewrite Z.sub_0_r in Hf, Hk. rewrite Hf, Hk.
    rewrite <- (IH ifront' (r :: back) ((s, e) :: iback) Hfront Hc).
    cbn [replaced]. rewrite Z.sub_0_r. reflexivity.
Qed.

(** X11: when the mapper resolves the ranges to intervals of the content
    that are in order and do not overlap, [foldRanges] neither panics nor
    fails: it returns the content with every interval replaced by "<>",
    each interval traded for two bytes. *)
Theorem foldRanges_chained (ranges : list FoldingRange)
  (ivs : list (Z * Z)) :
  Forall2 (resolves PositionPoint) ranges ivs ->
  chained 0 (len contents) ivs ->
  foldRanges PositionPoint contents ranges =
    Returns (replaced contents 0 ivs, nil) /\
  len (replaced contents 0 ivs) =
    len contents - covered ivs + 2 * len ranges.
Proof.
  intros Hres Hc. split.
  - pose proof (foldLoop_chained ranges ivs [] [] Hres) as H.
    rewrite !app_nil_r in H. exact (H Hc).
  - rewrite replaced_length by (lia || assumption).
    unfold len. rewrite (Forall2_length Hres). lia.
Qed.

End FoldRangesFacts.

Lemma foldRanges_chained_witness :
  foldRanges one_line_mapper sample_text
    [mkFoldingRange 0 1 0 3 ""; mkFoldingRange 0 3 0 4 "";
     mkFoldingRange 0 6 0 8 ""] =
    Returns (replaced sample_text 0 [(1, 3); (3, 4); (6, 8)], nil) /\
  len (replaced sample_text 0 [(1, 3); (3, 4); (6, 8)]) =
    len sample_text - covered [(1, 3); (3, 4); (6, 8)] + 2 * 3.
Proof.
  apply (foldRanges_chained one_line_mapper sample_text
           [mkFoldingRange 0 1 0 3 ""; mkFoldingRange 0 3 0 4 "";
            mkFoldingRange 0 6 0 8 ""]
           [(1, 3); (3, 4); (6, 8)]).
  - repeat constructor.
  - cbn. lia.
Defined.

(** What the loop of [foldRanges] has done when it returns. *)
Lemma foldLoop_result (PositionPoint : Position -> Z * error)
  (ranges : list FoldingRange) :
  forall n res text err,
    foldLoop PositionPoint ranges n res = Returns (text, err) ->
    (err = nil /\
     forall i r, (i < n)%nat -> nth_error ranges i = Some r ->
                 exists iv, resolves PositionPoint r iv) \/
    (err <> nil /\ text = []).
Proof.
  induction n as [|n IH]; intros res text err H; cbn [foldLoop] in H.
  - injection H as _ <-. left. split; [reflexivity|]. intros i r Hi. lia.
  - destruct (nth_error ranges n) as [r|] eqn:En; [|discriminate].
    destruct (PositionPoint (mkPosition (StartLine r) (StartCharacter r)))
      as [s e1] eqn:Es.
    destruct e1 as [|msg].
    2:{ injection H as <- <-. right. split; [discriminate | reflexivity]. }
    destruct (PositionPoint (mkPosition (EndLine r) (EndCharacter r)))
      as [e e2] eqn:Ee.
    destruct e2 as [|msg].
    2:{ injection H as <- <-. right. split; [discriminate | reflexivity]. }
    destruct (slice_to res s) as [a|]; [|discriminate].
    destruct (slice_from res e) as [b|]; [|discriminate].
    destruct (IH _ _ _ H) as [(Hnil & Hall)|Herr]; [|right; assumption].
    left. split; [assumption|]. intros i r' Hi Hr'.
    destruct (Nat.eq_dec i n) as [->|Hne].
    + rewrite En in Hr'. injection Hr' as <-. exists (s, e).
      split; assumption.
    + apply (Hall i); [lia | assumption].
Qed.

(** X12: whenever [foldRanges] returns, either the error is nil and the
    mapper has resolved the two ends of every range, or the error is not
    nil and the text returned with it is empty. *)
Theorem foldRanges_result (PositionPoint : Position -> Z * error)
  (contents : list byte) (ranges : list FoldingRange) (text : list byte)
  (err : error) :
  foldRanges PositionPoint contents ranges = Returns (text, err) ->
  (err = nil /\
   Forall (fun r => exists iv, resolves PositionPoint r iv) ranges) \/
  (err <> nil /\ text = []).
Proof.
  intros H. unfold foldRanges in H.
  destruct (foldLoop_result _ _ _ _ _ _ H) as [(Hnil & Hall)|Herr];
    [|right; assumption].
  left. split; [assumption|]. apply Forall_forall. intros r Hr.
  apply In_nth_error in Hr. destruct Hr as (i & Hi).
  apply (Hall i r); [|assumption].
  apply nth_error_Some. congruence.
Qed.

Lemma foldRanges_result_witness :
  (Errorf "position out of range" = nil /\
   Forall (fun r => exists iv, resolves one_line_mapper r iv)
          [mkFoldingRange 0 1 0 3 ""; mkFoldingRange 0 7 0 9 ""]) \/
  (Errorf "position out of range" <> nil /\ @Datatypes.nil byte = []).
Proof.
  apply (foldRanges_result one_line_mapper sample_text
           [mkFoldingRange 0 1 0 3 ""; mkFoldingRange 0 7 0 9 ""]).
  reflexivity.
Defined.

(** ** [nonOverlappingRanges], then [foldRanges] *)

Section Pipeline.

Variable PositionPoint : Position -> Z * error.
Variable contents : list byte.

(** The mapper keeps the order of the positions it resolves. *)
Hypothesis Hmono :
  forall p q o1 o2,
    pos_le (Line p, Character p) (Line q, Character q) ->
    PositionPoint p = (o1, nil) -> PositionPoint q = (o2, nil) ->
    o1 <= o2.

(** Ranges in order, which the mapper resolves into the content, give a
    chain of intervals. *)
Lemma resolved_chain (set : list FoldingRange) :
  StronglySorted (fun a b => pos_le (end_pos a) (start_pos b)) set ->
  Forall (fun r =>
            pos_le (start_pos r) (end_pos r) /\
            exists iv, resolves PositionPoint r iv /\
                       snd iv <= len contents) set ->
  forall lo,
    lo <= len contents ->
    (forall r iv, In r set -> resolves PositionPoint r iv -> lo <= fst iv) ->
    exists ivs,
      Forall2 (resolves PositionPoint) set ivs /\
      chained lo (len contents) ivs.
Proof.
  induction 1 as [|r set Hs IH Hr]; intros Hall lo Hlo Hfrom.
  - exists []. split; [constructor | assumption].
  - apply Forall_cons_iff in Hall.
    destruct Hall as ((Hwf & iv & Hiv & Hhi) & Hall).
    destruct (IH Hall (snd iv) Hhi) as (ivs & Hivs & Hc).
    { intros y iy Hy Hiy. rewrite Forall_forall in Hr.
      destruct Hiv as (_ & He). destruct Hiy as (Hsy & _).
      apply (Hmono (mkPosition (EndLine r) (EndCharacter r))
                   (mkPosition (StartLine y) (StartCharacter y))
                   _ _ (Hr y Hy) He Hsy). }
    exists (iv :: ivs). split; [constructor; assumption|].
    destruct iv as [s e]. cbn [chained fst snd] in *.
    split; [|assumption]. split.
    + apply (Hfrom r (s, e)); [left; reflexivity | assumption].
    + destruct Hiv as (Hs' & He').
      apply (Hmono (mkPosition (StartLine r) (StartCharacter r))
                   (mkPosition (EndLine r) (EndCharacter r))
                   _ _ Hwf Hs' He').
Qed.

(** X13: the two helpers compose, as in [runner.foldingRanges]: when the
    ranges are sorted by start, each starts no later than it ends, and the
    mapper resolves their ends to offsets of the content in the order of
    the positions, [nonOverlappingRanges] returns sets that [foldRanges]
    folds without panic or error, each into the content with the intervals
    of the set replaced. *)
Theorem folding_pipeline (ranges : list FoldingRange) :
  StronglySorted (fun a b => pos_le (start_pos a) (start_pos b)) ranges ->
  Forall (fun r =>
            pos_le (start_pos r) (end_pos r) /\
            exists iv, resolves PositionPoint r iv /\
                       0 <= fst iv /\ snd iv <= len contents) ranges ->
  exists res,
    nonOverlappingRanges ranges = Returns res /\
    Forall (fun set =>
              exists ivs,
                Forall2 (resolves PositionPoint) set ivs /\
                foldRanges PositionPoint contents set =
                  Returns (replaced contents 0 ivs, nil)) res.
Proof.
  intros Hsorted Hall.
  destruct (nonOverlappingRanges_sorted ranges Hsorted)
    as (res & Hres & Hin & Hsets).
  exists res. split; [assumption|].
  rewrite Forall_forall in *. intros set Hset.
  destruct (resolved_chain set (Hsets set Hset)) with (lo := 0)
    as (ivs & Hivs & Hc).
  - apply Forall_forall. intros r Hr.
    destruct (Hall r (Hin set r Hset Hr)) as (Hwf & iv & Hiv & H0 & Hhi).
    split; [assumption|]. exists iv. split; assumption.
  - unfold len. lia.
  - intros r iv Hr Hiv.
    destruct (Hall r (Hin set r Hset Hr)) as (_ & iv' & Hiv' & H0 & _).
    destruct Hiv as (Hs & _). destruct Hiv' as (Hs' & _).
    rewrite Hs in Hs'. injection Hs' as ->. assumption.
  - exists ivs. split; [assumption|].
    apply (foldRanges_chained PositionPoint contents set ivs Hivs Hc).
Qed.

End Pipeline.

Lemma one_line_mapper_monotone :
  forall p q o1 o2,
    pos_le (Line p, Character p) (Line q, Character q) ->
    one_line_mapper p = (o1, nil) -> one_line_mapper q = (o2, nil) ->
    o1 <= o2.
Proof.
  intros p q o1 o2 Hle Hp Hq. unfold one_line_mapper in *.
  destruct ((Line p =? 0) && (0 <=? Character p) && (Character p <=? 8))
    eqn:Ep; [|discriminate].
  destruct ((Line q =? 0) && (0 <=? Character q) && (Character q <=? 8))
    eqn:Eq; [|discriminate].
  injection Hp as <-. injection Hq as <-.
  rewrite !andb_true_iff, Z.eqb_eq, !Z.leb_le in Ep, Eq.
  unfold pos_le in Hle. cbn [fst snd] in Hle. lia.
Defined.

Lemma folding_pipeline_witness :
  exists res,
    nonOverlappingRanges sample_ranges = Returns res /\
    Forall (fun set =>
              exists ivs,
                Forall2 (resolves one_line_mapper) set ivs /\
                foldRanges one_line_mapper sample_text set =
                  Returns (replaced sample_text 0 ivs, nil)) res.
Proof.
  apply (folding_pipeline one_line_mapper sample_text
           one_line_mapper_monotone sample_ranges sample_ranges_sorted).
  unfold sample_ranges.
  repeat (constructor;
          [split;
           [unfold pos_le; simpl; lia
           | eexists (_, _); split;
             [split; reflexivity | simpl; unfold len; simpl; lia]]|]).
  constructor.
Defined.

(** ** [applyTextDocumentEdits] *)

Section ApplyEditsFacts.

Variable MapperT : Type.
Variable TextEdits : Type.
Variable SpanURI : string -> string.
Variable data_Mapper : string -> MapperT * error.
Variable protocol_NewMapper : string -> list byte -> MapperT.
Variable source_ApplyProtocolEdits :
  MapperT -> TextEdits -> list byte * error.

Let loop := applyLoop SpanURI data_Mapper protocol_NewMapper
                      source_ApplyProtocolEdits.
Let result := file_result SpanURI data_Mapper protocol_NewMapper
                          source_ApplyProtocolEdits.

(** What the loop returns, from any map. *)
Lemma applyLoop_result (edits : list (DocumentChanges TextEdits)) :
  forall res0 res err,
    loop res0 edits = (res, err) ->
    (err = nil /\ forall uri, res uri = result uri (res0 uri) edits) \/
    (err <> nil /\ forall uri, res uri = None).
Proof.
  subst loop result.
  induction edits as [|d rest IH]; intros res0 res err H;
    cbn [applyLoop file_result] in *.
  - injection H as <- <-. left. split; reflexivity.
  - destruct (TextDocumentEdit d) as [tde|]; [|apply IH; assumption].
    set (uri0 := SpanURI (TextDocument_URI tde)) in *.
    assert (forall m0 err0,
               match res0 uri0 with
               | Some content => (protocol_NewMapper uri0 content, nil)
               | None => data_Mapper uri0
               end = (m0, err0) ->
               m0 = match res0 uri0 with
                    | Some content => protocol_NewMapper uri0 content
                    | None => fst (data_Mapper uri0)
                    end) as Hm.
    { intros m0 err0 E. destruct (res0 uri0); [congruence|].
      rewrite E. reflexivity. }
    destruct (match res0 uri0 with
              | Some content => (protocol_NewMapper uri0 content, nil)
              | None => data_Mapper uri0
              end) as [m e1] eqn:Em.
    specialize (Hm _ _ eq_refl).
    destruct e1 as [|msg].
    2:{ injection H as <- <-. right. split; [discriminate | reflexivity]. }
    destruct (source_ApplyProtocolEdits m (Edits tde)) as [patched e2] eqn:Ep.
    destruct e2 as [|msg].
    2:{ injection H as <- <-. right. split; [discriminate | reflexivity]. }
    destruct (IH _ _ _ H) as [(Hnil & Hall)|Herr]; [|right; assumption].
    left. split; [assumption|]. intros uri. rewrite Hall.
    unfold map_insert. rewrite String.eqb_sym.
    destruct (String.eqb_spec uri0 uri) as [<-|Hne]; [|reflexivity].
    rewrite <- Hm, Ep. reflexivity.
Qed.

(** X14: when [applyTextDocumentEdits] succeeds, the text it returns for a
    file is what the edits for that file make of it, applied one after the
    other, the first to the mapper of the test data and each later one to
    the text the one before has produced; edits for other files do not
    change it, and a file without edits has no entry.  When it fails, it
    returns the nil map. *)
Theorem applyTextDocumentEdits_result
  (edits : list (DocumentChanges TextEdits)) (res : uri_map) (err : error) :
  applyTextDocumentEdits SpanURI data_Mapper protocol_NewMapper
                         source_ApplyProtocolEdits edits = (res, err) ->
  (err = nil /\ forall uri, res uri = result uri None edits) \/
  (err <> nil /\ forall uri, res uri = None).
Proof. intros H. apply (applyLoop_result edits empty_map). exact H. Qed.

End ApplyEditsFacts.

Lemma applyTextDocumentEdits_result_witness :
  (nil = nil /\
   forall uri,
     fst (sample_apply sample_edits) uri =
     file_result (fun uri => uri) (fun _ => ([x61], nil))
                 (fun _ content => content) (fun m e => (m ++ e, nil))
                 uri None sample_edits) \/
  (nil <> nil /\ forall uri, fst (sample_apply sample_edits) uri = None).
Proof.
  apply (applyTextDocumentEdits_result (list byte) (list byte)
           (fun uri => uri) (fun _ => ([x61], nil))
           (fun _ content => content) (fun m e => (m ++ e, nil))
           sample_edits (fst (sample_apply sample_edits)) nil).
  reflexivity.
Defined.
